(** * Timeline segment editor (caption track and scene track)

    A shallow embedding of
      apps/desktop/src/routes/editor/Timeline/CaptionTrack.tsx
      apps/desktop/src/routes/editor/Timeline/SceneTrack.tsx
    and of the [CaptionExport] panel of the editor.

    Conventions of the embedding.
    - A JavaScript number holding seconds or pixels is an exact rational
      ([Q]); rounding, NaN and the infinities are outside the model, except
      that a division whose divisor is zero is marked as having no finite
      result ([js_div]).
    - The Solid store ([project], [editorState]) is a record that is passed
      through every handler; every call of [setProject], [setEditorState]
      and [setTimeout] is appended to the [calls] field in call order, the
      way a mock store and a mock renderer would record them.
    - [batch] only delays reactive notifications, so it does not show.
    - Closure variables of a handler ([startPos], [startSegment], [type],
      the row's [index()]) are explicit arguments. *)

From Stdlib Require Import QArith Qminmax Qround Lqa.
From stdpp Require Import base list strings pretty.

(** ** Numbers *)

Module Js.

(** [a / b]: with a zero divisor JavaScript yields Infinity, -Infinity or
    NaN, none of which is a rational; [None] stands for those. *)
Definition js_div (a b : Q) : option Q :=
  if Qeq_bool b 0 then None else Some (a / b)%Q.

(** [Array.prototype.findIndex]; [None] stands for [-1]. *)
Fixpoint findIndex {A : Type} (p : A -> bool) (l : list A) : option nat :=
  match l with
  | [] => None
  | x :: l' => if p x then Some 0%nat else option_map S (findIndex p l')
  end.

(** [Array.prototype.sort] with a comparator [(a, b) => key a - key b]:
    a stable sort, ascending by [key].  Insertion from the right keeps
    the original order of elements with equal keys. *)
Fixpoint sort_insert {A : Type} (key : A -> Q) (x : A) (l : list A) : list A :=
  match l with
  | [] => [x]
  | y :: l' =>
      if Qle_bool (key x) (key y) then x :: y :: l'
      else y :: sort_insert key x l'
  end.

Fixpoint sort {A : Type} (key : A -> Q) (l : list A) : list A :=
  match l with
  | [] => []
  | x :: l' => sort_insert key x (sort key l')
  end.

(** Ascending by [key]: every element is at most every later one. *)
Fixpoint ascending {A : Type} (key : A -> Q) (l : list A) : Prop :=
  match l with
  | [] => True
  | x :: l' => Forall (fun y => (key x <= key y)%Q) l' /\ ascending key l'
  end.

End Js.

(** ** Segments *)

Module Caption.

(** [CaptionSegmentProps["segment"]]. *)
Record segment : Type := mk {
  id : string;
  start : Q;
  end_ : Q;
  text : string
}.

End Caption.

Module Scene.

Inductive SceneMode : Type := default | cameraOnly | hideCamera.

(** [SceneSegment] of [~/utils/tauri]. *)
Record segment : Type := mk {
  start : Q;
  end_ : Q;
  mode : SceneMode
}.

End Scene.

(** ** The editor context: project store, editor state, recorded calls *)

Module Editor.

Record Captions : Type := { segments : option (list Caption.segment) }.

Record Project : Type := {
  captions : option Captions;
  (** [project.timeline?.sceneSegments] *)
  sceneSegments : option (list Scene.segment)
}.

Inductive Selection : Type :=
| SelCaption (id : string)
| SelScene (index : nat).

Record Transform : Type := { position : Q; zoom : Q }.

Record TimelineState : Type := {
  transform : Transform;
  selection : option Selection
}.

Record EditorState : Type := {
  playbackTime : Q;
  timeline : TimelineState
}.

(** What a mock store and a mock renderer see, in call order.  Every
    [setTimeout] of these two files defers one
    [events.renderFrameEvent.emit]; [ms] is its delay. *)
Inductive call : Type :=
| SetProject
| SetEditorState
| SetTimeout (ms : nat).

Record World : Type := {
  project : Project;
  editorState : EditorState;
  calls : list call
}.

(** The payload of [events.renderFrameEvent.emit], computed when the timer
    fires: [frame_number = Math.floor(editorState.playbackTime * FPS)].
    [FPS] is a constant of [../context], taken as a parameter. *)
Definition renderFrame (FPS : Q) (w : World) : Z :=
  Qfloor (playbackTime (editorState w) * FPS).

Definition record (c : call) (w : World) : World :=
  {| project := project w; editorState := editorState w;
     calls := calls w ++ [c] |}.

(** [setProject("captions", "segments", segs)].  The handlers call it only
    after reading [project.captions], so [captions] is present. *)
Definition setProject_captions_segments
    (segs : list Caption.segment) (w : World) : World :=
  {| project := {| captions := Some {| segments := Some segs |};
                   sceneSegments := sceneSegments (project w) |};
     editorState := editorState w;
     calls := calls w ++ [SetProject] |}.

(** [setProject("timeline", "sceneSegments", v)]. *)
Definition setProject_sceneSegments
    (v : option (list Scene.segment)) (w : World) : World :=
  {| project := {| captions := captions (project w); sceneSegments := v |};
     editorState := editorState w;
     calls := calls w ++ [SetProject] |}.

(** [setEditorState("timeline", "selection", sel)]. *)
Definition setEditorState_selection
    (sel : option Selection) (w : World) : World :=
  {| project := project w;
     editorState :=
       {| playbackTime := playbackTime (editorState w);
          timeline :=
            {| transform := transform (timeline (editorState w));
               selection := sel |} |};
     calls := calls w ++ [SetEditorState] |}.

(** [setTimeout(() => events.renderFrameEvent.emit(...), ms)]. *)
Definition setTimeout (ms : nat) (w : World) : World :=
  record (SetTimeout ms) w.

(** [project?.captions?.segments]. *)
Definition captions_segments (w : World) : option (list Caption.segment) :=
  match captions (project w) with
  | Some c => segments c
  | None => None
  end.

Definition is_SetTimeout (c : call) : bool :=
  match c with SetTimeout _ => true | _ => false end.

End Editor.

(** ** CaptionTrack.tsx *)

Module CaptionTrack.
Import Editor.

(** The [type] argument of [handleMouseDown]: ["start" | "end" | "move"]. *)
Inductive DragType : Type := DragStart | DragEnd | DragMove.

(** The signals of one [CaptionSegment] component. *)
Record Signals : Type := {
  isDragging : option DragType;
  isEditing : bool;
  editText : string
}.

Definition setIsDragging (v : option DragType) (s : Signals) : Signals :=
  {| isDragging := v; isEditing := isEditing s; editText := editText s |}.

Definition setIsEditing (v : bool) (s : Signals) : Signals :=
  {| isDragging := isDragging s; isEditing := v; editText := editText s |}.

Definition setEditText (v : string) (s : Signals) : Signals :=
  {| isDragging := isDragging s; isEditing := isEditing s; editText := v |}.

(** The two [createEffect]s of the component, run to quiescence:
    editing stops when the segment is deselected, and outside editing the
    edit buffer follows the stored text. *)
Definition effects (segment : Caption.segment) (isSelected : bool)
    (s : Signals) : Signals :=
  let s1 := if negb isSelected && isEditing s then setIsEditing false s
            else s in
  if negb (isEditing s1) then setEditText (Caption.text segment) s1 else s1.

(** [startX] and [width]: the pixel position of a segment. *)
Definition startX (segment : Caption.segment) (position secsPerPixel : Q)
    : option Q :=
  Js.js_div (Caption.start segment - position) secsPerPixel.

Definition width (segment : Caption.segment) (secsPerPixel : Q) : option Q :=
  Js.js_div (Caption.end_ segment - Caption.start segment) secsPerPixel.

(** The [isSelected] prop computed by [CaptionTrack]. *)
Definition isSelected (segment : Caption.segment) (w : World) : bool :=
  match selection (timeline (editorState w)) with
  | Some (SelCaption i) => String.eqb i (Caption.id segment)
  | _ => false
  end.

(** The [onSelect] prop given by [CaptionTrack]. *)
Definition onSelect (segment : Caption.segment) (w : World) : World :=
  setTimeout 100
    (setEditorState_selection (Some (SelCaption (Caption.id segment))) w).

(** What the listeners installed by [handleMouseDown] close over. *)
Record Drag : Type := {
  type : DragType;
  startPos : Q;
  startSegment : Caption.segment
}.

Definition same_id (i : string) (s : Caption.segment) : bool :=
  String.eqb (Caption.id s) i.

(** The segment written at [segments[segmentIndex]] by one tick:
    [{ ...segments[segmentIndex], start/end: ... }]. *)
Definition dragged (d : Drag) (delta : Q) (cur : Caption.segment)
    : Caption.segment :=
  let s0 := startSegment d in
  match type d with
  | DragStart =>
      let newStart :=
        Qmax 0 (Qmin (Caption.start s0 + delta) (Caption.end_ s0 - (1#10))) in
      Caption.mk (Caption.id cur) newStart (Caption.end_ cur)
        (Caption.text cur)
  | DragEnd =>
      let newEnd :=
        Qmax (Caption.start s0 + (1#10)) (Caption.end_ s0 + delta) in
      Caption.mk (Caption.id cur) (Caption.start cur) newEnd
        (Caption.text cur)
  | DragMove =>
      let duration := (Caption.end_ s0 - Caption.start s0)%Q in
      let newStart := Qmax 0 (Caption.start s0 + delta) in
      Caption.mk (Caption.id cur) newStart (newStart + duration)
        (Caption.text cur)
  end.

(** [handleMouseMove], the document's [mousemove] listener of a gesture. *)
Definition handleMouseMove (d : Drag) (clientX secsPerPixel : Q) (w : World)
    : World :=
  let delta := ((clientX - startPos d) * secsPerPixel)%Q in
  match captions_segments w with
  | None => w
  | Some segments =>
      match Js.findIndex (same_id (Caption.id (startSegment d))) segments with
      | None => w
      | Some segmentIndex =>
          match segments !! segmentIndex with
          | None => w
          | Some cur =>
              setProject_captions_segments
                (<[segmentIndex := dragged d delta cur]> segments) w
          end
      end
  end.

(** [handleMouseUp], the document's [mouseup] listener of a gesture. *)
Definition handleMouseUp (s : Signals) (w : World) : Signals * World :=
  (setIsDragging None s, setTimeout 100 w).

(** [handleMouseDown]: nothing while editing; otherwise select, remember
    the pointer position and a copy of the segment, install the
    listeners. *)
Definition handleMouseDown (segment : Caption.segment) (ty : DragType)
    (clientX : Q) (s : Signals) (w : World)
    : Signals * World * option Drag :=
  if isEditing s then (s, w, None)
  else (setIsDragging (Some ty) s, onSelect segment w,
        Some {| type := ty; startPos := clientX; startSegment := segment |}).

(** The [mousemove] events of a gesture: pointer x and the value of
    [secsPerPixel()] at each event. *)
Definition ticks (d : Drag) (moves : list (Q * Q)) (w : World) : World :=
  fold_left (fun w m => handleMouseMove d (fst m) (snd m) w) moves w.

(** One whole gesture: mouse down on a segment, moves, mouse up. *)
Definition gesture (segment : Caption.segment) (ty : DragType) (clientX : Q)
    (moves : list (Q * Q)) (s : Signals) (w : World) : Signals * World :=
  match handleMouseDown segment ty clientX s w with
  | (s1, w1, Some d) => handleMouseUp s1 (ticks d moves w1)
  | (s1, w1, None) => (s1, w1)
  end.

(** The track content's own [onMouseUp], reached when the pointer is
    released over the track. *)
Definition track_onMouseUp (w : World) : World := setTimeout 150 w.


(** [saveEdit]. *)
Definition saveEdit (segment : Caption.segment) (s : Signals) (w : World)
    : Signals * World :=
  match captions_segments w with
  | None => (s, w)
  | Some segments =>
      let w' :=
        match Js.findIndex (same_id (Caption.id segment)) segments with
        | Some segmentIndex =>
            match segments !! segmentIndex with
            | Some cur =>
                let updated :=
                  Caption.mk (Caption.id cur) (Caption.start cur)
                    (Caption.end_ cur) (editText s) in
                setTimeout 200
                  (setProject_captions_segments
                     (<[segmentIndex := updated]> segments) w)
            | None => w
            end
        | None => w
        end in
      (setIsEditing false s, w')
  end.

(** The [input] element's handlers. *)
Definition onInput (value : string) (s : Signals) (w : World)
    : Signals * World :=
  (setEditText value s, setTimeout 50 w).

Definition onKeyDown (segment : Caption.segment) (key : string)
    (s : Signals) (w : World) : Signals * World :=
  if String.eqb key "Enter" then saveEdit segment s w
  else if String.eqb key "Escape" then (setIsEditing false s, setTimeout 100 w)
  else (s, w).

Definition onBlur (segment : Caption.segment) (s : Signals) (w : World)
    : Signals * World :=
  let r := saveEdit segment s w in
  (fst r, setTimeout 300 (snd r)).

(** Two handlers in a row: the second runs on the signals and the world
    left by the first. *)
Definition andThen (r : Signals * World)
    (h : Signals -> World -> Signals * World) : Signals * World :=
  h (fst r) (snd r).


End CaptionTrack.

(** ** SceneTrack.tsx *)

Module SceneTrack.
Import Editor.

(** [SceneSegmentDragState]. *)
Inductive SceneSegmentDragState : Type :=
| idle
| moving (index : nat) (startMouseX : Q) (startSegment : Scene.segment)
| resizing_start (index : nat) (startMouseX : Q) (startSegment : Scene.segment)
| resizing_end (index : nat) (startMouseX : Q) (startSegment : Scene.segment).

(** [dragState.type !== "idle"]. *)
Definition dragging (ds : SceneSegmentDragState) : bool :=
  match ds with idle => false | _ => true end.

(** [sceneSegments()]: [project.timeline?.sceneSegments || []]. *)
Definition sceneSegments_or_empty (w : World) : list Scene.segment :=
  default [] (sceneSegments (project w)).


(** [segmentPixelStart], [segmentPixelEnd]. *)
Definition segmentPixelStart (segment : Scene.segment)
    (position secsPerPixel : Q) : option Q :=
  Js.js_div (Scene.start segment - position) secsPerPixel.

Definition segmentPixelEnd (segment : Scene.segment)
    (position secsPerPixel : Q) : option Q :=
  Js.js_div (Scene.end_ segment - position) secsPerPixel.

(** [setProject("timeline", "sceneSegments", index, ...)]: a write into the
    element at [index].  With no array, or with [index] past its end, the
    store is left as it is. *)
Definition setProject_sceneSegments_at (index : nat)
    (f : Scene.segment -> Scene.segment) (w : World) : World :=
  match sceneSegments (project w) with
  | Some l =>
      match l !! index with
      | Some s => setProject_sceneSegments (Some (<[index := f s]> l)) w
      | None => record SetProject w
      end
  | None => record SetProject w
  end.

(** The choice made by the segment's [onMouseDown]: [relativeX] is the
    pointer's offset from the element's left edge, [pixelWidth] the value
    of [segmentPixelWidth()]. *)
Definition edgeThreshold : Q := 10.

Definition startDrag (relativeX pixelWidth : Q) (index : nat)
    (startMouseX : Q) (startSegment : Scene.segment)
    : SceneSegmentDragState :=
  if negb (Qle_bool edgeThreshold relativeX)
  then resizing_start index startMouseX startSegment
  else if negb (Qle_bool relativeX (pixelWidth - edgeThreshold))
  then resizing_end index startMouseX startSegment
  else moving index startMouseX startSegment.

(** The segment's [onMouseDown]: set [dragState], select by index. *)
Definition onMouseDown (segment : Scene.segment) (index : nat)
    (clientX relativeX pixelWidth : Q) (w : World)
    : SceneSegmentDragState * World :=
  (startDrag relativeX pixelWidth index clientX segment,
   setEditorState_selection (Some (SelScene index)) w).

(** The window's [mousemove] listener.  [index] is the row's [index()] at
    the time of the event; [startMouseX] and [startSegment] are the
    listener's own copies; [segment.start] and [segment.end] are read from
    the row's element in the store. *)
Definition mousemove (dragState : SceneSegmentDragState) (index : nat)
    (startMouseX : Q) (startSegment : Scene.segment)
    (clientX secsPerPixel : Q) (w : World) : World :=
  let deltaX := (clientX - startMouseX)%Q in
  let deltaTime := (deltaX * secsPerPixel)%Q in
  match dragState with
  | moving _ _ _ =>
      setProject_sceneSegments_at index
        (fun s =>
           Scene.mk (Qmax 0 (Scene.start startSegment + deltaTime))
             (Scene.end_ startSegment + deltaTime) (Scene.mode s)) w
  | resizing_start _ _ _ =>
      setProject_sceneSegments_at index
        (fun s =>
           Scene.mk
             (Qmax 0 (Qmin (Scene.start startSegment + deltaTime)
                           (Scene.end_ s - (1#10))))
             (Scene.end_ s) (Scene.mode s)) w
  | resizing_end _ _ _ =>
      setProject_sceneSegments_at index
        (fun s =>
           Scene.mk (Scene.start s)
             (Qmax (Scene.start s + (1#10))
                   (Scene.end_ startSegment + deltaTime))
             (Scene.mode s)) w
  | idle => w
  end.

(** The window's [mouseup] listener. *)
Definition mouseup (w : World) : SceneSegmentDragState * World := (idle, w).

(** The [mousemove] events of a gesture on the row at [index]. *)
Definition ticks (dragState : SceneSegmentDragState) (index : nat)
    (startMouseX : Q) (startSegment : Scene.segment)
    (moves : list (Q * Q)) (w : World) : World :=
  fold_left
    (fun w m =>
       mousemove dragState index startMouseX startSegment (fst m) (snd m) w)
    moves w.

(** One whole gesture on the row at [index]. *)
Definition gesture (segment : Scene.segment) (index : nat)
    (clientX relativeX pixelWidth : Q) (moves : list (Q * Q)) (w : World)
    : SceneSegmentDragState * World :=
  let '(dragState, w1) :=
    onMouseDown segment index clientX relativeX pixelWidth w in
  mouseup (ticks dragState index clientX segment moves w1).

End SceneTrack.

(** ** The segment invariant of the data model *)

Module Invariant.

(** A segment starts at or after 0 and lasts at least 0.1 s. *)
Definition valid (start end_ : Q) : Prop :=
  (0 <= start)%Q /\ (start + (1#10) <= end_)%Q.


Definition scene_valid (s : Scene.segment) : Prop :=
  valid (Scene.start s) (Scene.end_ s).


End Invariant.

(** ** The resize rule in the specification's words *)

(** The clamp and the bound of the specification's resize rule, to be
    compared with what the handlers compute. *)
Module SpecWords.


(** [clamp(x, lo, hi)]: [x] brought into [[lo, hi]]. *)
Definition clamp (x lo hi : Q) : Q := Qmin (Qmax x lo) hi.



End SpecWords.

(** ** Sample data for the scenarios *)

Module Sample.
Import Editor.

Definition world (caps : option (list Caption.segment))
    (scenes : option (list Scene.segment)) (time zoom_ : Q) : World :=
  {| project := {| captions := Some {| segments := caps |};
                   sceneSegments := scenes |};
     editorState :=
       {| playbackTime := time;
          timeline := {| transform := {| position := 0; zoom := zoom_ |};
                         selection := None |} |};
     calls := [] |}.

Definition signals : CaptionTrack.Signals :=
  {| CaptionTrack.isDragging := None;
     CaptionTrack.isEditing := false;
     CaptionTrack.editText := "" |}.

Definition A : Caption.segment := Caption.mk "A" 0 3 "hi".
Definition B : Caption.segment := Caption.mk "B" 5 8 "there".

End Sample.

(** ** More of CaptionTrack.tsx: the caption element *)

Module CaptionSegment.
Import Editor CaptionTrack.

(** [a < b] on numbers. *)
Definition lt (a b : Q) : bool := negb (Qle_bool b a).

(** [isVisible]: [endX > 0 && startX() < (trackBounds.width ?? 0)] with
    [endX = startX() + width()].  [None]: the positions are not finite
    numbers. *)
Definition isVisible (segment : Caption.segment)
    (position secsPerPixel : Q) (trackBounds_width : option Q)
    : option bool :=
  match startX segment position secsPerPixel,
        width segment secsPerPixel with
  | Some sx, Some wd =>
      let endX := (sx + wd)%Q in
      Some (lt 0 endX && lt sx (default 0%Q trackBounds_width))
  | _, _ => None
  end.

(** [isCurrent]: the playhead is inside the caption. *)
Definition isCurrent (segment : Caption.segment) (w : World) : bool :=
  let time := playbackTime (editorState w) in
  Qle_bool (Caption.start segment) time && lt time (Caption.end_ segment).

(** The element's [onClick].  The 50 ms timer that focuses the input acts
    on the DOM only and is not recorded. *)
Definition onClick (segment : Caption.segment) (s : Signals) (w : World)
    : Signals * World :=
  let r :=
    if negb (isSelected segment w) then (s, onSelect segment w)
    else if negb (isEditing s)
    then (setEditText (Caption.text segment) (setIsEditing true s), w)
    else (s, w) in
  (fst r, setTimeout 100 (snd r)).

(** A click on the element with the pointer at rest, through the
    element's own handlers in the order of the events: [onMouseDown] (a
    "move" gesture with no pointer move), the document's [mouseup]
    listener of that gesture, then [onClick]. *)
Definition click (segment : Caption.segment) (clientX : Q) (s : Signals)
    (w : World) : Signals * World :=
  andThen (gesture segment DragMove clientX [] s w) (onClick segment).

(** The events of the [input] element while the editor is open. *)
Inductive inputEvent : Type :=
| Input (value : string)
| KeyDown (key : string)
| Blur.

Definition handle (segment : Caption.segment) (ev : inputEvent)
    (s : Signals) (w : World) : Signals * World :=
  match ev with
  | Input value => onInput value s w
  | KeyDown key => onKeyDown segment key s w
  | Blur => onBlur segment s w
  end.

(** The handlers of a list of events, run in order. *)
Definition session (segment : Caption.segment) (evs : list inputEvent)
    (r : Signals * World) : Signals * World :=
  fold_left (fun r ev => andThen r (handle segment ev)) evs r.

(** An event that types: an input, or a key other than Enter and
    Escape. *)
Definition typing (ev : inputEvent) : bool :=
  match ev with
  | Input _ => true
  | KeyDown key => negb (String.eqb key "Enter" || String.eqb key "Escape")
  | Blur => false
  end.

(** What a later tick of the same gesture reads from the dragged caption:
    its id, its text and the edge that the gesture does not drag. *)
Definition kept (d : Drag) (a b : Caption.segment) : Prop :=
  Caption.id a = Caption.id b /\ Caption.text a = Caption.text b /\
  match type d with
  | DragStart => Caption.end_ a = Caption.end_ b
  | DragEnd => Caption.start a = Caption.start b
  | DragMove => True
  end.

(** The value of the last input event, [v] when there is none. *)
Definition lastInput (v : string) (evs : list inputEvent) : string :=
  fold_left (fun v ev => match ev with Input value => value | _ => v end)
    evs v.

End CaptionSegment.

(** ** More of SceneTrack.tsx: the scene element *)

Module SceneSegmentView.
Import Editor SceneTrack.

(** The [when] of the element's [Show]:
    [segmentPixelEnd() > 0 && segmentPixelStart() < (trackBounds.width ?? 0)].
    [None]: the positions are not finite numbers. *)
Definition shown (segment : Scene.segment) (position secsPerPixel : Q)
    (trackBounds_width : option Q) : option bool :=
  match segmentPixelEnd segment position secsPerPixel,
        segmentPixelStart segment position secsPerPixel with
  | Some pe, Some ps =>
      Some (CaptionSegment.lt 0 pe &&
            CaptionSegment.lt ps (default 0%Q trackBounds_width))
  | _, _ => None
  end.

(** What a later tick of the same gesture reads from the element at the
    row's index: its mode and the edge that the gesture does not drag. *)
Definition kept (ds : SceneSegmentDragState) (a b : Scene.segment) : Prop :=
  match ds with
  | idle => a = b
  | moving _ _ _ => Scene.mode a = Scene.mode b
  | resizing_start _ _ _ =>
      Scene.mode a = Scene.mode b /\ Scene.end_ a = Scene.end_ b
  | resizing_end _ _ _ =>
      Scene.mode a = Scene.mode b /\ Scene.start a = Scene.start b
  end.

End SceneSegmentView.

(** ** The caption export panel *)

Module CaptionExport.

(** [CaptionExportFormat]; [exportFunction] is the Tauri command of the
    format, an input of the model; [icon] and [description] are shown only
    and are left out. *)
Record CaptionExportFormat : Type := {
  name : string;
  extension : string
}.

Definition CAPTION_FORMATS : list CaptionExportFormat :=
  [ {| name := "WebVTT"; extension := "vtt" |};
    {| name := "SRT"; extension := "srt" |};
    {| name := "Plain Text"; extension := "txt" |} ].

(** What the panel does to the outside, in order. *)
Inductive effect : Type :=
| ExportFunction (format : string)
| Download (content filename : string)
| ToastSuccess (message : string)
| ConsoleError
| ToastError (message : string).

(** The signals of the panel, the calls of [exportFunction] that have not
    settled yet (each with its format), and the effects so far. *)
Record Panel : Type := {
  isExporting : bool;
  exportingFormat : option string;
  pending : list CaptionExportFormat;
  effects : list effect
}.

Definition initial : Panel :=
  {| isExporting := false; exportingFormat := None; pending := [];
     effects := [] |}.

(** [exportCaptionToString] up to its [await]: nothing while an export is
    running; otherwise the signals are set and [exportFunction] is
    called. *)
Definition exportCaptionToString (format : CaptionExportFormat) (p : Panel)
    : Panel :=
  if isExporting p then p
  else {| isExporting := true;
          exportingFormat := Some (name format);
          pending := pending p ++ [format];
          effects := effects p ++ [ExportFunction (name format)] |}.

(** [exportCaptionToString] from its [await] on, for the pending call at
    position [k]: [inl content] is the resolved promise, [inr error] the
    rejected one; [prettyName] is [meta().prettyName].  The [finally]
    block resets the signals in both cases. *)
Definition settled (prettyName : string) (k : nat)
    (result : string + string) (p : Panel) : Panel :=
  match pending p !! k with
  | None => p
  | Some format =>
      let done :=
        match result with
        | inl content =>
            [Download content
               (prettyName +:+ "-captions." +:+ extension format);
             ToastSuccess ("Captions exported as " +:+ name format)]
        | inr error =>
            [ConsoleError;
             ToastError ("Failed to export captions: " +:+ error)]
        end in
      {| isExporting := false;
         exportingFormat := None;
         pending := delete k (pending p);
         effects := effects p ++ done |}
  end.

(** What can happen to the panel: a click on a format button, or the
    settling of a pending call. *)
Inductive event : Type :=
| Click (format : CaptionExportFormat)
| Settle (k : nat) (result : string + string).

Definition step (prettyName : string) (p : Panel) (e : event) : Panel :=
  match e with
  | Click format => exportCaptionToString format p
  | Settle k result => settled prettyName k result p
  end.

Definition run (prettyName : string) (es : list event) (p : Panel) : Panel :=
  fold_left (step prettyName) es p.

Definition is_call (e : effect) : bool :=
  match e with ExportFunction _ => true | _ => false end.

Definition is_toast (e : effect) : bool :=
  match e with ToastSuccess _ | ToastError _ => true | _ => false end.

(** What holds of the panel at any time: either nothing is pending and
    the signals are at rest, or one call is pending and the signals show
    it; and the calls made are the toasts shown plus the pending ones. *)
Definition consistent (p : Panel) : Prop :=
  ((isExporting p = false /\ pending p = [] /\ exportingFormat p = None) \/
   (isExporting p = true /\
    exists f, pending p = [f] /\ exportingFormat p = Some (name f))) /\
  length (List.filter is_call (effects p)) =
  (length (List.filter is_toast (effects p)) + length (pending p))%nat.

End CaptionExport.

(** * Facts *)

(** ** [findIndex] and [sort] *)

Module JsFacts.
Import Js.

Section FindIndex.
Context {A : Type} (p : A -> bool).

Lemma findIndex_Some (l : list A) (i : nat) :
  findIndex p l = Some i ->
  exists x, l !! i = Some x /\ p x = true.
Proof.
  revert i. induction l as [|y l IH]; intros i; simpl; [discriminate|].
  destruct (p y) eqn:Hy.
  - intros [= <-]. exists y. split; [reflexivity | exact Hy].
  - destruct (findIndex p l) as [k|]; simpl; [|discriminate].
    intros [= <-]. apply IH. reflexivity.
Qed.

Lemma findIndex_None (l : list A) :
  findIndex p l = None -> Forall (fun x => p x = false) l.
Proof.
  induction l as [|y l IH]; simpl; intros H; [constructor|].
  destruct (p y) eqn:Hy; [discriminate|].
  destruct (findIndex p l); [discriminate|].
  constructor; [exact Hy | apply IH; reflexivity].
Qed.

(** Replacing an element by one on which [p] agrees moves no index. *)
Lemma findIndex_insert (l : list A) (i : nat) (x x' : A) :
  l !! i = Some x -> p x' = p x ->
  findIndex p (<[i := x']> l) = findIndex p l.
Proof.
  revert i. induction l as [|y l IH]; intros [|i] Hl Hp; simpl in *;
    try discriminate.
  - injection Hl as ->. rewrite Hp. reflexivity.
  - rewrite (IH i Hl Hp). reflexivity.
Qed.
End FindIndex.

Section Sort.
Context {A : Type} (key : A -> Q).

Lemma sort_insert_perm (x : A) (l : list A) :
  sort_insert key x l ≡ₚ x :: l.
Proof.
  induction l as [|y l IH]; simpl; [reflexivity|].
  destruct (Qle_bool (key x) (key y)); [reflexivity|].
  rewrite IH. apply Permutation_swap.
Qed.



Lemma ascending_insert (x : A) (l : list A) :
  ascending key l -> ascending key (sort_insert key x l).
Proof.
  induction l as [|y l IH]; simpl.
  - intros _. split; [constructor | exact I].
  - intros [Hy Hl].
    destruct (Qle_bool (key x) (key y)) eqn:Hxy.
    + apply Qle_bool_iff in Hxy. simpl. repeat split; try assumption.
      constructor; [exact Hxy|].
      eapply Forall_impl; [exact Hy|]. simpl. intros z Hz.
      eapply Qle_trans; eassumption.
    + assert (key y <= key x)%Q as Hyx.
      { apply Qlt_le_weak, Qnot_le_lt. intros H.
        apply Qle_bool_iff in H. congruence. }
      simpl. split; [|apply IH; exact Hl].
      rewrite (sort_insert_perm x l). constructor; assumption.
Qed.

Lemma ascending_sort (l : list A) : ascending key (sort key l).
Proof.
  induction l as [|x l IH]; simpl; [exact I|].
  apply ascending_insert, IH.
Qed.

(** Sorting a collection that is already ascending changes nothing. *)
Lemma sort_ascending (l : list A) : ascending key l -> sort key l = l.
Proof.
  induction l as [|x l IH]; simpl; [reflexivity|].
  intros [Hx Hl]. rewrite (IH Hl).
  destruct l as [|y l']; simpl; [reflexivity|].
  apply Forall_cons in Hx as [Hxy _].
  apply Qle_bool_iff in Hxy. rewrite Hxy. reflexivity.
Qed.

Lemma sort_idempotent (l : list A) : sort key (sort key l) = sort key l.
Proof. apply sort_ascending, ascending_sort. Qed.

(** Stability: the elements of any one key keep their relative order. *)
Lemma sort_insert_stable (k : Q) (x : A) (l : list A) :
  ascending key l ->
  List.filter (fun y => Qeq_bool (key y) k) (sort_insert key x l) =
  List.filter (fun y => Qeq_bool (key y) k) (x :: l).
Proof.
  induction l as [|y l IH]; [reflexivity|].
  intros [Hy Hl]. cbn [sort_insert].
  destruct (Qle_bool (key x) (key y)) eqn:Hxy; [reflexivity|].
  assert (key y < key x)%Q as Hlt.
  { apply Qnot_le_lt. intros H. apply Qle_bool_iff in H. congruence. }
  cbn [List.filter]. rewrite (IH Hl). cbn [List.filter].
  destruct (Qeq_bool (key x) k) eqn:Hxk, (Qeq_bool (key y) k) eqn:Hyk;
    try reflexivity.
  apply Qeq_bool_iff in Hxk, Hyk. rewrite Hxk, Hyk in Hlt.
  exfalso. exact (Qlt_irrefl _ Hlt).
Qed.

Lemma sort_stable (k : Q) (l : list A) :
  List.filter (fun y => Qeq_bool (key y) k) (sort key l) =
  List.filter (fun y => Qeq_bool (key y) k) l.
Proof.
  induction l as [|x l IH]; [reflexivity|].
  cbn [sort]. rewrite sort_insert_stable by apply ascending_sort.
  cbn [List.filter]. rewrite IH. reflexivity.
Qed.
End Sort.

End JsFacts.

(** ** Arithmetic of the clamps *)

Ltac name_minmax :=
  repeat match goal with
    | |- context [Qmax ?a ?b] =>
        let m := fresh "m" in
        pose proof (Q.max_spec a b); set (m := Qmax a b) in *; clearbody m
    | |- context [Qmin ?a ?b] =>
        let m := fresh "m" in
        pose proof (Q.min_spec a b); set (m := Qmin a b) in *; clearbody m
    | H : context [Qmax ?a ?b] |- _ =>
        let m := fresh "m" in
        pose proof (Q.max_spec a b); set (m := Qmax a b) in *; clearbody m
    | H : context [Qmin ?a ?b] |- _ =>
        let m := fresh "m" in
        pose proof (Q.min_spec a b); set (m := Qmin a b) in *; clearbody m
    end.

Ltac solve_minmax :=
  name_minmax;
  repeat match goal with
    | H : _ \/ _ |- _ => destruct H
    | H : _ /\ _ |- _ => destruct H
    end;
  lra.

Module ClampFacts.
Import SpecWords.

(** The code's start clamp, [max(0, min(x, hi))], is the specification's
    [clamp(x, 0, hi)] as soon as the interval is not empty. *)
Lemma max_min_clamp (x hi : Q) :
  (0 <= hi)%Q -> Qmax 0 (Qmin x hi) == clamp x 0 hi.
Proof. unfold clamp. intros H. solve_minmax. Qed.

Lemma start_clamp_bounds (x hi : Q) :
  (0 <= hi)%Q ->
  (0 <= Qmax 0 (Qmin x hi))%Q /\ (Qmax 0 (Qmin x hi) <= hi)%Q /\
  ((hi <= x)%Q -> Qmax 0 (Qmin x hi) == hi) /\
  ((0 <= x)%Q -> (x <= hi)%Q -> Qmax 0 (Qmin x hi) == x).
Proof. intros H. repeat split; intros; solve_minmax. Qed.

Lemma end_clamp_bounds (lo x : Q) :
  (lo <= Qmax lo x)%Q /\ Qmax lo x == Qmax x lo /\
  ((x <= lo)%Q -> Qmax lo x == lo) /\
  ((lo <= x)%Q -> Qmax lo x == x).
Proof. repeat split; intros; solve_minmax. Qed.

End ClampFacts.

(** ** The caption track: ticks and gestures *)

Module CaptionFacts.
Import Js JsFacts Editor CaptionTrack.

Lemma dragged_id (d : Drag) (delta : Q) (cur : Caption.segment) :
  Caption.id (dragged d delta cur) = Caption.id cur.
Proof. unfold dragged. destruct (type d); reflexivity. Qed.


Lemma same_id_dragged (i : string) (d : Drag) (delta : Q)
    (cur : Caption.segment) :
  same_id i (dragged d delta cur) = same_id i cur.
Proof. unfold same_id. rewrite dragged_id. reflexivity. Qed.

(** A tick whose segment is in the collection writes that one element. *)
Lemma handleMouseMove_found (d : Drag) (x spp : Q) (w : World)
    (segs : list Caption.segment) (i : nat) (cur : Caption.segment) :
  captions_segments w = Some segs ->
  findIndex (same_id (Caption.id (startSegment d))) segs = Some i ->
  segs !! i = Some cur ->
  handleMouseMove d x spp w =
  setProject_captions_segments
    (<[i := dragged d ((x - startPos d) * spp) cur]> segs) w.
Proof.
  intros Hs Hi Hc. unfold handleMouseMove. rewrite Hs, Hi, Hc. reflexivity.
Qed.

(** A tick whose segment is not in the collection writes nothing. *)
Lemma handleMouseMove_absent (d : Drag) (x spp : Q) (w : World) :
  match captions_segments w with
  | Some segs =>
      findIndex (same_id (Caption.id (startSegment d))) segs = None
  | None => True
  end ->
  handleMouseMove d x spp w = w.
Proof.
  unfold handleMouseMove. destruct (captions_segments w) as [segs|];
    [|reflexivity].
  intros ->. reflexivity.
Qed.


Lemma caption_ticks_cons (d : Drag) (m : Q * Q) (moves : list (Q * Q)) (w : World) :
  ticks d (m :: moves) w = ticks d moves (handleMouseMove d (fst m) (snd m) w).
Proof. reflexivity. Qed.


(** *** What a tick computes *)

Section Dragged.
Import SpecWords Invariant.
Variables (d : Drag) (delta : Q) (cur : Caption.segment).
Abbreviation s0 := (startSegment d).
Abbreviation r := (dragged d delta cur).

Lemma dragged_move :
  type d = DragMove ->
  Caption.start r = Qmax 0 (Caption.start s0 + delta) /\
  Caption.end_ r - Caption.start r == Caption.end_ s0 - Caption.start s0 /\
  (0 <= Caption.start r)%Q.
Proof.
  intros Ht. unfold dragged. rewrite Ht. simpl.
  split; [reflexivity|]. split; [ring | solve_minmax].
Qed.



End Dragged.


End CaptionFacts.


(** ** The scene track: ticks and gestures *)

Module SceneFacts.
Import Js JsFacts Editor SceneTrack SpecWords Invariant.

Lemma set_at_found (index : nat) (f : Scene.segment -> Scene.segment)
    (w : World) (l : list Scene.segment) (s : Scene.segment) :
  sceneSegments (project w) = Some l -> l !! index = Some s ->
  setProject_sceneSegments_at index f w =
  setProject_sceneSegments (Some (<[index := f s]> l)) w.
Proof.
  intros Hl Hs. unfold setProject_sceneSegments_at. rewrite Hl, Hs.
  reflexivity.
Qed.



Lemma scene_ticks_cons (ds : SceneSegmentDragState) (index : nat) (x0 : Q)
    (s0 : Scene.segment) (m : Q * Q) (moves : list (Q * Q)) (w : World) :
  ticks ds index x0 s0 (m :: moves) w =
  ticks ds index x0 s0 moves (mousemove ds index x0 s0 (fst m) (snd m) w).
Proof. reflexivity. Qed.


Lemma startDrag_dragging (relativeX pixelWidth : Q) (index : nat) (x0 : Q)
    (s0 : Scene.segment) :
  dragging (startDrag relativeX pixelWidth index x0 s0) = true.
Proof.
  unfold startDrag.
  destruct (negb _); [reflexivity|]. destruct (negb _); reflexivity.
Qed.



End SceneFacts.


(** * The claims *)

Module Claims.
Import Js JsFacts Editor SpecWords Invariant.

(** ** Moving *)

(** A caption move tick: the start is the snapshot's start plus the delta,
    floored at 0, and the length of the snapshot is kept. *)
Lemma caption_move_tick (d : CaptionTrack.Drag) (x spp : Q) (w : World)
    (segs : list Caption.segment) (i : nat) (cur : Caption.segment) :
  CaptionTrack.type d = CaptionTrack.DragMove ->
  captions_segments w = Some segs ->
  findIndex (CaptionTrack.same_id (Caption.id (CaptionTrack.startSegment d)))
    segs = Some i ->
  segs !! i = Some cur ->
  let s0 := CaptionTrack.startSegment d in
  let delta := ((x - CaptionTrack.startPos d) * spp)%Q in
  exists r,
    captions_segments (CaptionTrack.handleMouseMove d x spp w) =
      Some (<[i := r]> segs) /\
    Caption.start r = Qmax 0 (Caption.start s0 + delta) /\
    Caption.end_ r - Caption.start r == Caption.end_ s0 - Caption.start s0.
Proof.
  intros Ht Hs Hi Hc s0 delta.
  rewrite (CaptionFacts.handleMouseMove_found d x spp w segs i cur Hs Hi Hc).
  eexists. split; [reflexivity|].
  destruct (CaptionFacts.dragged_move d delta cur Ht) as (H1 & H2 & _).
  split; assumption.
Qed.

(** A scene move tick: the start is floored at 0, the end is the
    snapshot's end plus the delta; the length is kept as long as the floor
    is not reached. *)
Lemma scene_move_tick (i0 : nat) (y0 : Q) (t0 : Scene.segment)
    (index : nat) (x0 : Q) (s0 : Scene.segment) (x spp : Q) (w : World)
    (l : list Scene.segment) (cur : Scene.segment) :
  sceneSegments (project w) = Some l -> l !! index = Some cur ->
  let deltaTime := ((x - x0) * spp)%Q in
  exists r,
    sceneSegments
      (project
         (SceneTrack.mousemove (SceneTrack.moving i0 y0 t0) index x0 s0
            x spp w)) = Some (<[index := r]> l) /\
    Scene.start r = Qmax 0 (Scene.start s0 + deltaTime) /\
    Scene.end_ r = (Scene.end_ s0 + deltaTime)%Q /\
    ((0 <= Scene.start s0 + deltaTime)%Q ->
     Scene.end_ r - Scene.start r == Scene.end_ s0 - Scene.start s0).
Proof.
  intros Hl Hc deltaTime. unfold SceneTrack.mousemove.
  rewrite (SceneFacts.set_at_found _ _ w l cur Hl Hc).
  eexists. split; [reflexivity|]. fold deltaTime. simpl.
  repeat split. intros H. solve_minmax.
Qed.

(** C1, on the scene track.  A scene segment from 1 s to 3 s is moved left
    by 2 s: the tick writes start 0 and end 1, so the segment is 1 s long
    instead of 2 s.  The start is floored and the end is not moved with
    it. *)
Theorem C1_scene_move_floor_loses_duration :
  let s0 := Scene.mk 1 3 Scene.default in
  let w := Sample.world None (Some [s0]) 0 10 in
  let w' :=
    SceneTrack.mousemove (SceneTrack.moving 0 100 s0) 0 100 s0 98 1 w in
  let r := Scene.mk 0 1 Scene.default in
  sceneSegments (project w') = Some [r] /\
  Scene.start r == Qmax 0 (Scene.start s0 + (98 - 100) * 1) /\
  ~ (Scene.end_ r - Scene.start r == Scene.end_ s0 - Scene.start s0).
Proof.
  cbv zeta. split; [vm_compute; reflexivity|].
  split; [vm_compute; reflexivity|].
  simpl. intros H. vm_compute in H. discriminate H.
Qed.

(** C5, on the scene track.  The same segment moved left by 4 s: the tick
    writes start 0 and end -1, a segment that ends before it starts. *)
Theorem C5_scene_move_breaks_invariant :
  let s0 := Scene.mk 1 3 Scene.default in
  let w := Sample.world None (Some [s0]) 0 10 in
  let w' :=
    SceneTrack.mousemove (SceneTrack.moving 0 100 s0) 0 100 s0 96 1 w in
  scene_valid s0 /\
  sceneSegments (project w') = Some [Scene.mk 0 (-1) Scene.default] /\
  ~ scene_valid (Scene.mk 0 (-1) Scene.default) /\
  ~ (Scene.start (Scene.mk 0 (-1) Scene.default) <
     Scene.end_ (Scene.mk 0 (-1) Scene.default))%Q.
Proof.
  cbv zeta. unfold scene_valid, valid. simpl.
  split; [split; lra|]. split; [vm_compute; reflexivity|].
  split; [intros [_ H]; lra | lra].
Qed.

(** ** Resizing *)





(** ** The end of a gesture *)




(** ** Refresh requests *)

(** The calls of the caption ticks: store writes only, at most one per
    tick. *)
Lemma caption_ticks_calls (d : CaptionTrack.Drag) (moves : list (Q * Q))
    (w : World) :
  exists k, (k <= length moves)%nat /\
    calls (CaptionTrack.ticks d moves w) = calls w ++ replicate k SetProject /\
    editorState (CaptionTrack.ticks d moves w) = editorState w.
Proof.
  revert w. induction moves as [|m moves IH]; intros w.
  - exists 0%nat. simpl. rewrite app_nil_r. repeat split; lia.
  - rewrite CaptionFacts.caption_ticks_cons.
    destruct (IH (CaptionTrack.handleMouseMove d (fst m) (snd m) w))
      as (k & Hk & Hc & He).
    rewrite Hc, He. unfold CaptionTrack.handleMouseMove.
    destruct (captions_segments w) as [segs|];
      [destruct (findIndex _ segs) as [i|];
       [destruct (segs !! i) as [cur|]|]|].
    + exists (S k). simpl. rewrite <- app_assoc.
      split; [lia|]. split; reflexivity.
    + exists k. simpl. split; [lia|]. split; reflexivity.
    + exists k. simpl. split; [lia|]. split; reflexivity.
    + exists k. simpl. split; [lia|]. split; reflexivity.
Qed.

(** The calls of the scene ticks: one store write per tick. *)
Lemma scene_ticks_calls (ds : SceneTrack.SceneSegmentDragState)
    (index : nat) (x0 : Q) (s0 : Scene.segment) (moves : list (Q * Q))
    (w : World) :
  SceneTrack.dragging ds = true ->
  calls (SceneTrack.ticks ds index x0 s0 moves w) =
    calls w ++ replicate (length moves) SetProject /\
  editorState (SceneTrack.ticks ds index x0 s0 moves w) = editorState w.
Proof.
  intros Hd. revert w. induction moves as [|m moves IH]; intros w.
  - simpl. rewrite app_nil_r. split; reflexivity.
  - rewrite SceneFacts.scene_ticks_cons.
    destruct (IH (SceneTrack.mousemove ds index x0 s0 (fst m) (snd m) w))
      as [Hc He].
    assert (calls (SceneTrack.mousemove ds index x0 s0 (fst m) (snd m) w) =
            calls w ++ [SetProject] /\
            editorState
              (SceneTrack.mousemove ds index x0 s0 (fst m) (snd m) w) =
            editorState w) as [Hc1 He1].
    { unfold SceneTrack.mousemove, SceneTrack.setProject_sceneSegments_at.
      destruct ds; try discriminate;
        destruct (sceneSegments (project w)) as [l|];
        try destruct (l !! index); split; reflexivity. }
    rewrite Hc, He, Hc1, He1. simpl. rewrite <- app_assoc.
    split; reflexivity.
Qed.

Lemma no_timeout_in_writes (n : nat) :
  List.filter is_SetTimeout (replicate n SetProject) = [].
Proof. induction n as [|n IH]; simpl; [reflexivity | exact IH]. Qed.

(** C4 as stated fails: a completed scene gesture schedules no refresh
    request, and a completed caption gesture schedules two, the first of
    them at mouse down, before any store write. *)
Lemma C4_refresh_count_differs :
  let w := Sample.world (Some [Sample.A; Sample.B])
             (Some [Scene.mk 1 3 Scene.default]) 0 10 in
  let moves := [(103, 1); (106, 1)]%Q in
  calls (snd (SceneTrack.gesture (Scene.mk 1 3 Scene.default) 0 100 50 200
                moves w)) =
    [SetEditorState; SetProject; SetProject] /\
  calls (snd (CaptionTrack.gesture Sample.A CaptionTrack.DragMove 100 moves
                Sample.signals w)) =
    [SetEditorState; SetTimeout 100; SetProject; SetProject;
     SetTimeout 100].
Proof. cbv zeta. split; vm_compute; reflexivity. Qed.

(** C4, amended.  The calls of a completed caption gesture are: the
    selection and one refresh request at mouse down, then store writes
    only (at most one per tick), then the one refresh request of mouse up,
    with a delay of 100 ms, which is the last call and so comes after all
    the writes; the playhead, from which the frame index is computed, is
    not moved.  A release over the track content adds one more request
    through the track's own handler.  A gesture started while the caption
    is being edited does nothing.  The calls of a completed scene gesture are the selection and
    one store write per tick, with no refresh request. *)
Theorem C4_gesture_calls
    (w : World) (moves : list (Q * Q)) (FPS : Q)
    (seg : Caption.segment) (ty : CaptionTrack.DragType) (x0 : Q)
    (s : CaptionTrack.Signals)
    (sseg : Scene.segment) (index : nat) (relativeX pixelWidth : Q) :
  let wc := snd (CaptionTrack.gesture seg ty x0 moves s w) in
  let ws := snd (SceneTrack.gesture sseg index x0 relativeX pixelWidth
                   moves w) in
  (exists k, (k <= length moves)%nat /\
     calls wc =
       if CaptionTrack.isEditing s then calls w
       else calls w ++ [SetEditorState; SetTimeout 100] ++
            replicate k SetProject ++ [SetTimeout 100]) /\
  renderFrame FPS wc = renderFrame FPS w /\
  calls (snd (CaptionTrack.handleMouseUp s w)) = calls w ++ [SetTimeout 100] /\
  calls (CaptionTrack.track_onMouseUp wc) = calls wc ++ [SetTimeout 150] /\
  calls ws = calls w ++ [SetEditorState] ++
             replicate (length moves) SetProject /\
  List.filter is_SetTimeout (calls ws) = List.filter is_SetTimeout (calls w).
Proof.
  intros wc ws. subst wc ws.
  unfold CaptionTrack.gesture, CaptionTrack.handleMouseDown.
  assert (calls
            (snd (SceneTrack.gesture sseg index x0 relativeX pixelWidth
                    moves w)) =
          calls w ++ [SetEditorState] ++ replicate (length moves) SetProject)
    as Hsc.
  { unfold SceneTrack.gesture, SceneTrack.onMouseDown, SceneTrack.mouseup.
    simpl.
    destruct (scene_ticks_calls
                (SceneTrack.startDrag relativeX pixelWidth index x0 sseg)
                index x0 sseg moves
                (setEditorState_selection (Some (SelScene index)) w)
                (SceneFacts.startDrag_dragging _ _ _ _ _)) as [-> _].
    simpl. rewrite <- app_assoc. reflexivity. }
  destruct (CaptionTrack.isEditing s) eqn:He.
  - split; [exists 0%nat; split; [lia|reflexivity]|].
    split; [reflexivity|]. split; [reflexivity|]. split; [reflexivity|].
    split; [exact Hsc|].
    rewrite Hsc, !List.filter_app, no_timeout_in_writes, app_nil_r.
    reflexivity.
  - set (d := {| CaptionTrack.type := ty; CaptionTrack.startPos := x0;
                 CaptionTrack.startSegment := seg |}).
    destruct (caption_ticks_calls d moves (CaptionTrack.onSelect seg w))
      as (k & Hk & Hc & Hed).
    split; [exists k; split; [exact Hk|]|].
    { simpl. rewrite Hc. simpl. rewrite <- !app_assoc. reflexivity. }
    split; [unfold renderFrame; simpl; rewrite Hed; reflexivity|].
    split; [reflexivity|]. split; [reflexivity|]. split; [exact Hsc|].
    rewrite Hsc, !List.filter_app, no_timeout_in_writes, app_nil_r.
    reflexivity.
Qed.

(** ** Adding a segment at the playhead *)




(** ** A segment that is no longer there *)

(** On the caption track, the ticks of a gesture whose segment id is not in
    the collection write nothing at all. *)
Lemma caption_stale_ticks (d : CaptionTrack.Drag) (moves : list (Q * Q))
    (w : World) (segs : list Caption.segment) :
  captions_segments w = Some segs ->
  findIndex (CaptionTrack.same_id (Caption.id (CaptionTrack.startSegment d)))
    segs = None ->
  CaptionTrack.ticks d moves w = w.
Proof.
  intros Hs Hi. induction moves as [|m moves IH]; [reflexivity|].
  rewrite CaptionFacts.caption_ticks_cons, CaptionFacts.handleMouseMove_absent.
  - exact IH.
  - rewrite Hs. exact Hi.
Qed.

(** C7, on the scene track.  Segment [A] (0 s to 2 s) was at index 0 when
    the move gesture started and has been removed since; [B] (3 s to 5 s)
    is now at index 0.  The next tick, 1 s to the right, writes [A]'s
    moved bounds, 1 s to 3 s, into [B]. *)
Theorem C7_scene_stale_index_writes_other :
  let A := Scene.mk 0 2 Scene.default in
  let B := Scene.mk 3 5 Scene.cameraOnly in
  let w := Sample.world None (Some [B]) 0 10 in
  let w' := SceneTrack.mousemove (SceneTrack.moving 0 100 A) 0 100 A 101 1 w in
  (A ∉ [B]) /\
  sceneSegments (project w') = Some [Scene.mk 1 3 Scene.cameraOnly] /\
  calls w' = [SetProject].
Proof.
  cbv zeta. split; [|split; vm_compute; reflexivity].
  intros H. apply list_elem_of_singleton in H. discriminate H.
Qed.

(** ** Seconds per pixel *)

(** C8 as stated fails: with [secsPerPixel() = 0] no position is a finite
    number, and with [secsPerPixel() = -1] the caption starting at 5 s is
    placed at -5 px, on the other side of the origin, which no positive
    replacement of the divisor would do. *)
Lemma C8_secsPerPixel_is_not_clamped :
  CaptionTrack.startX Sample.B 0 0 = None /\
  CaptionTrack.width Sample.B 0 = None /\
  SceneTrack.segmentPixelStart (Scene.mk 1 3 Scene.default) 0 0 = None /\
  SceneTrack.segmentPixelEnd (Scene.mk 1 3 Scene.default) 0 0 = None /\
  CaptionTrack.startX Sample.B 0 (-1) = Some (-5)%Q.
Proof. repeat split; vm_compute; reflexivity. Qed.

Lemma js_div_spec (a b : Q) :
  match js_div a b with
  | Some x => ~ b == 0 /\ x * b == a
  | None => b == 0
  end.
Proof.
  unfold js_div. destruct (Qeq_bool b 0) eqn:Hb.
  - apply Qeq_bool_iff. exact Hb.
  - assert (~ b == 0) as Hn.
    { intros H. apply Qeq_bool_iff in H. congruence. }
    split; [exact Hn|]. field. exact Hn.
Qed.

(** C8, amended.  The positions are computed with [secsPerPixel()] as it
    is, with no replacement of a value that is zero or negative: a
    position is a finite number [x] exactly when [secsPerPixel()] is not
    zero, and then [x * secsPerPixel()] is the time offset it stands for.
    When [secsPerPixel()] is zero the drag delta is zero too: a move tick
    puts the caption at its snapshot start (floored at 0). *)
Theorem C8_positions_use_secsPerPixel_as_is
    (cseg : Caption.segment) (sseg : Scene.segment)
    (position secsPerPixel : Q) :
  match CaptionTrack.startX cseg position secsPerPixel with
  | Some x =>
      ~ secsPerPixel == 0 /\
      x * secsPerPixel == Caption.start cseg - position
  | None => secsPerPixel == 0
  end /\
  match CaptionTrack.width cseg secsPerPixel with
  | Some x =>
      ~ secsPerPixel == 0 /\
      x * secsPerPixel == Caption.end_ cseg - Caption.start cseg
  | None => secsPerPixel == 0
  end /\
  match SceneTrack.segmentPixelStart sseg position secsPerPixel with
  | Some x =>
      ~ secsPerPixel == 0 /\ x * secsPerPixel == Scene.start sseg - position
  | None => secsPerPixel == 0
  end /\
  match SceneTrack.segmentPixelEnd sseg position secsPerPixel with
  | Some x =>
      ~ secsPerPixel == 0 /\ x * secsPerPixel == Scene.end_ sseg - position
  | None => secsPerPixel == 0
  end /\
  (secsPerPixel == 0 ->
   forall (d : CaptionTrack.Drag) (x : Q) (cur : Caption.segment),
     CaptionTrack.type d = CaptionTrack.DragMove ->
     Caption.start
       (CaptionTrack.dragged d ((x - CaptionTrack.startPos d) * secsPerPixel)
          cur) ==
     Qmax 0 (Caption.start (CaptionTrack.startSegment d))).
Proof.
  repeat (split; [apply js_div_spec|]).
  intros H0 d x cur Ht.
  destruct (CaptionFacts.dragged_move d
              ((x - CaptionTrack.startPos d) * secsPerPixel) cur Ht)
    as (-> & _).
  assert ((x - CaptionTrack.startPos d) * secsPerPixel == 0) as Hz
    by (rewrite H0; ring).
  revert Hz. generalize ((x - CaptionTrack.startPos d) * secsPerPixel)%Q.
  intros q Hq. solve_minmax.
Qed.

(** C8 amended, at [secsPerPixel() = 0] and at [secsPerPixel() = 1/2]. *)
Lemma C8_positions_witness :
  (CaptionTrack.startX Sample.B 1 0 = None /\
   CaptionTrack.startX Sample.B 1 (1#2) = Some 8%Q) /\
  match CaptionTrack.startX Sample.B 1 0 with
  | Some x => ~ 0 == 0 /\ x * 0 == Caption.start Sample.B - 1
  | None => 0 == 0
  end /\
  match CaptionTrack.width Sample.B 0 with
  | Some x =>
      ~ 0 == 0 /\ x * 0 == Caption.end_ Sample.B - Caption.start Sample.B
  | None => 0 == 0
  end /\
  match SceneTrack.segmentPixelStart (Scene.mk 1 3 Scene.default) 1 0 with
  | Some x =>
      ~ 0 == 0 /\ x * 0 == Scene.start (Scene.mk 1 3 Scene.default) - 1
  | None => 0 == 0
  end /\
  match SceneTrack.segmentPixelEnd (Scene.mk 1 3 Scene.default) 1 0 with
  | Some x =>
      ~ 0 == 0 /\ x * 0 == Scene.end_ (Scene.mk 1 3 Scene.default) - 1
  | None => 0 == 0
  end /\
  (0 == 0 ->
   forall (d : CaptionTrack.Drag) (x : Q) (cur : Caption.segment),
     CaptionTrack.type d = CaptionTrack.DragMove ->
     Caption.start
       (CaptionTrack.dragged d ((x - CaptionTrack.startPos d) * 0) cur) ==
     Qmax 0 (Caption.start (CaptionTrack.startSegment d))).
Proof.
  split; [split; vm_compute; reflexivity|].
  exact (C8_positions_use_secsPerPixel_as_is Sample.B
           (Scene.mk 1 3 Scene.default) 1 0).
Defined.

(** ** The inline text editor *)

(** [saveEdit] on a collection that holds the segment's id. *)
Lemma saveEdit_found (seg : Caption.segment) (s : CaptionTrack.Signals)
    (w : World) (segs : list Caption.segment) (i : nat)
    (cur : Caption.segment) :
  captions_segments w = Some segs ->
  findIndex (CaptionTrack.same_id (Caption.id seg)) segs = Some i ->
  segs !! i = Some cur ->
  CaptionTrack.saveEdit seg s w =
  (CaptionTrack.setIsEditing false s,
   setTimeout 200
     (setProject_captions_segments
        (<[i := Caption.mk (Caption.id cur) (Caption.start cur)
                  (Caption.end_ cur) (CaptionTrack.editText s)]> segs) w)).
Proof.
  intros Hs Hi Hc. unfold CaptionTrack.saveEdit. rewrite Hs, Hi, Hc.
  reflexivity.
Qed.



(** C10.  [saveEdit] keeps the ids, the starts and the ends of all the
    captions, in the same order, and keeps every caption other than the
    one found by the edited segment's id; that one gets the edit buffer as
    its text.  The scene segments and the editor state are not touched. *)
Theorem C10_saveEdit_changes_only_the_text
    (seg : Caption.segment) (s : CaptionTrack.Signals) (w : World)
    (segs : list Caption.segment) :
  captions_segments w = Some segs ->
  let w' := snd (CaptionTrack.saveEdit seg s w) in
  let found := findIndex (CaptionTrack.same_id (Caption.id seg)) segs in
  exists segs',
    captions_segments w' = Some segs' /\
    Caption.id <$> segs' = Caption.id <$> segs /\
    Caption.start <$> segs' = Caption.start <$> segs /\
    Caption.end_ <$> segs' = Caption.end_ <$> segs /\
    (forall j, found <> Some j -> segs' !! j = segs !! j) /\
    (forall i, found = Some i ->
       Caption.text <$> segs' !! i = Some (CaptionTrack.editText s)) /\
    sceneSegments (project w') = sceneSegments (project w) /\
    editorState w' = editorState w.
Proof.
  intros Hs w' found. subst w'.
  destruct found as [i|] eqn:Hi; subst found.
  - destruct (findIndex_Some _ segs i Hi) as (cur & Hc & _).
    rewrite (saveEdit_found seg s w segs i cur Hs Hi Hc).
    eexists. split; [reflexivity|].
    rewrite !list_fmap_insert. simpl.
    rewrite !list_insert_id by (rewrite list_lookup_fmap, Hc; reflexivity).
    split; [reflexivity|]. split; [reflexivity|]. split; [reflexivity|].
    split; [|split; [|split; reflexivity]].
    + intros j Hj. apply list_lookup_insert_ne. congruence.
    + intros i' [= <-].
      rewrite list_lookup_insert_eq by (eapply lookup_lt_Some; exact Hc).
      reflexivity.
  - exists segs. unfold CaptionTrack.saveEdit. rewrite Hs, Hi. simpl.
    split; [exact Hs|]. repeat (split; [reflexivity|]).
    split; [discriminate|]. split; reflexivity.
Qed.

(** C10 at a concrete commit: "hello" is committed to caption [B] of the
    collection [A; B]. *)
Lemma C10_saveEdit_witness :
  let w := Sample.world (Some [Sample.A; Sample.B])
             (Some [Scene.mk 1 3 Scene.default]) 0 10 in
  let s := CaptionTrack.setEditText "hello"
             (CaptionTrack.setIsEditing true Sample.signals) in
  let w' := snd (CaptionTrack.saveEdit Sample.B s w) in
  let found :=
    findIndex (CaptionTrack.same_id (Caption.id Sample.B))
      [Sample.A; Sample.B] in
  captions_segments w = Some [Sample.A; Sample.B] /\
  captions_segments w' = Some [Sample.A; Caption.mk "B" 5 8 "hello"] /\
  exists segs',
    captions_segments w' = Some segs' /\
    Caption.id <$> segs' = Caption.id <$> [Sample.A; Sample.B] /\
    Caption.start <$> segs' = Caption.start <$> [Sample.A; Sample.B] /\
    Caption.end_ <$> segs' = Caption.end_ <$> [Sample.A; Sample.B] /\
    (forall j, found <> Some j -> segs' !! j = [Sample.A; Sample.B] !! j) /\
    (forall i, found = Some i ->
       Caption.text <$> segs' !! i = Some (CaptionTrack.editText s)) /\
    sceneSegments (project w') = sceneSegments (project w) /\
    editorState w' = editorState w.
Proof.
  intros w s w' found.
  split; [reflexivity|]. split; [reflexivity|].
  exact (C10_saveEdit_changes_only_the_text Sample.B s w
           [Sample.A; Sample.B] eq_refl).
Defined.

End Claims.


(** * Further properties of the code *)

Module Extras.
Import Js JsFacts Editor SpecWords Invariant.

(** ** Caption gestures *)

Lemma caption_ticks_snoc (d : CaptionTrack.Drag) (moves : list (Q * Q))
    (m : Q * Q) (w : World) :
  CaptionTrack.ticks d (moves ++ [m]) w =
  CaptionTrack.handleMouseMove d (fst m) (snd m)
    (CaptionTrack.ticks d moves w).
Proof. unfold CaptionTrack.ticks. rewrite fold_left_app. reflexivity. Qed.

Lemma caption_ticks_no_collection (d : CaptionTrack.Drag)
    (moves : list (Q * Q)) (w : World) :
  captions_segments w = None -> CaptionTrack.ticks d moves w = w.
Proof.
  intros Hs. induction moves as [|m moves IH]; [reflexivity|].
  rewrite CaptionFacts.caption_ticks_cons.
  rewrite CaptionFacts.handleMouseMove_absent; [exact IH|].
  rewrite Hs. exact I.
Qed.

Lemma caption_ticks_absent (d : CaptionTrack.Drag) (moves : list (Q * Q))
    (w : World) :
  (forall segs, captions_segments w = Some segs ->
     findIndex
       (CaptionTrack.same_id (Caption.id (CaptionTrack.startSegment d)))
       segs = None) ->
  CaptionTrack.ticks d moves w = w.
Proof.
  intros H. induction moves as [|m moves IH]; [reflexivity|].
  rewrite CaptionFacts.caption_ticks_cons.
  rewrite CaptionFacts.handleMouseMove_absent; [exact IH|].
  destruct (captions_segments w) as [segs|]; [apply H; reflexivity|exact I].
Qed.

Lemma kept_dragged (d : CaptionTrack.Drag) (delta : Q)
    (cur : Caption.segment) :
  CaptionSegment.kept d cur (CaptionTrack.dragged d delta cur).
Proof.
  unfold CaptionSegment.kept, CaptionTrack.dragged.
  destruct (CaptionTrack.type d); simpl; repeat split.
Qed.

Lemma kept_trans (d : CaptionTrack.Drag) (a b c : Caption.segment) :
  CaptionSegment.kept d a b -> CaptionSegment.kept d b c ->
  CaptionSegment.kept d a c.
Proof.
  unfold CaptionSegment.kept. intros (H1 & H2 & H3) (K1 & K2 & K3).
  split; [congruence|]. split; [congruence|].
  destruct (CaptionTrack.type d); congruence.
Qed.

(** A tick computes the same element from any two elements that agree on
    what the gesture keeps. *)
Lemma dragged_of_kept (d : CaptionTrack.Drag) (delta : Q)
    (a b : Caption.segment) :
  CaptionSegment.kept d a b ->
  CaptionTrack.dragged d delta a = CaptionTrack.dragged d delta b.
Proof.
  unfold CaptionSegment.kept, CaptionTrack.dragged.
  intros (H1 & H2 & H3).
  destruct (CaptionTrack.type d); rewrite H1, H2, ?H3; reflexivity.
Qed.

Lemma project_of_captions (w : World) (segs : list Caption.segment) :
  captions_segments w = Some segs ->
  project w =
  {| captions := Some {| segments := Some segs |};
     sceneSegments := sceneSegments (project w) |}.
Proof.
  unfold captions_segments. destruct w as [[c sc] e cs]. simpl.
  destruct c as [[sg]|]; simpl; [|discriminate].
  intros ->. reflexivity.
Qed.

(** After any ticks of a gesture the collection is the one at mouse down
    with the dragged element replaced, and the replacement agrees with the
    original on what the gesture keeps. *)
Lemma caption_ticks_shape (d : CaptionTrack.Drag) (moves : list (Q * Q))
    (w : World) (segs : list Caption.segment) (i : nat)
    (cur : Caption.segment) :
  captions_segments w = Some segs ->
  findIndex (CaptionTrack.same_id (Caption.id (CaptionTrack.startSegment d)))
    segs = Some i ->
  segs !! i = Some cur ->
  exists cur',
    project (CaptionTrack.ticks d moves w) =
      {| captions := Some {| segments := Some (<[i := cur']> segs) |};
         sceneSegments := sceneSegments (project w) |} /\
    CaptionSegment.kept d cur cur'.
Proof.
  revert w segs cur. induction moves as [|m moves IH];
    intros w segs cur Hs Hi Hc.
  - exists cur. rewrite list_insert_id by exact Hc. simpl.
    split; [apply project_of_captions; exact Hs|].
    unfold CaptionSegment.kept. destruct (CaptionTrack.type d);
      repeat split.
  - rewrite CaptionFacts.caption_ticks_cons.
    rewrite (CaptionFacts.handleMouseMove_found d _ _ w segs i cur Hs Hi Hc).
    set (c1 := CaptionTrack.dragged d _ cur).
    destruct (IH (setProject_captions_segments (<[i := c1]> segs) w)
                (<[i := c1]> segs) c1) as (c2 & Hp & Hk).
    + reflexivity.
    + rewrite <- Hi. apply findIndex_insert with (x := cur); [exact Hc|].
      apply CaptionFacts.same_id_dragged.
    + apply list_lookup_insert_eq. eapply lookup_lt_Some; exact Hc.
    + exists c2. rewrite Hp, list_insert_insert_eq. simpl.
      split; [reflexivity|].
      eapply kept_trans; [apply kept_dragged | exact Hk].
Qed.

(** The ticks of a caption gesture do not accumulate: the project after a
    series of ticks is the project after its last tick alone. *)
Lemma caption_ticks_last (d : CaptionTrack.Drag) (moves : list (Q * Q))
    (m : Q * Q) (w : World) :
  project (CaptionTrack.ticks d (moves ++ [m]) w) =
  project (CaptionTrack.ticks d [m] w).
Proof.
  rewrite caption_ticks_snoc. simpl.
  destruct (captions_segments w) as [segs|] eqn:Hs.
  - destruct (findIndex
                (CaptionTrack.same_id
                   (Caption.id (CaptionTrack.startSegment d))) segs)
      as [i|] eqn:Hi.
    + destruct (findIndex_Some _ segs i Hi) as (cur & Hc & _).
      destruct (caption_ticks_shape d moves w segs i cur Hs Hi Hc)
        as (cur' & Hp & Hk).
      assert (captions_segments (CaptionTrack.ticks d moves w) =
              Some (<[i := cur']> segs)) as Hs'.
      { unfold captions_segments. rewrite Hp. reflexivity. }
      rewrite (CaptionFacts.handleMouseMove_found d _ _ _
                 (<[i := cur']> segs) i cur' Hs').
      * rewrite (CaptionFacts.handleMouseMove_found d _ _ w segs i cur
                   Hs Hi Hc).
        simpl. rewrite Hp. simpl.
        rewrite list_insert_insert_eq.
        rewrite (dragged_of_kept d _ cur cur' Hk). reflexivity.
      * rewrite <- Hi. apply findIndex_insert with (x := cur); [exact Hc|].
        unfold CaptionTrack.same_id. destruct Hk as (<- & _). reflexivity.
      * apply list_lookup_insert_eq. eapply lookup_lt_Some; exact Hc.
    + rewrite caption_ticks_absent; [reflexivity|].
      intros segs' Hs'. rewrite Hs in Hs'. injection Hs' as <-. exact Hi.
  - rewrite caption_ticks_no_collection by exact Hs. reflexivity.
Qed.

(** X1.  Where a caption drag gesture ends is all that counts: a gesture
    with any pointer moves before its last one leaves the same project and
    the same signals as the gesture with the last move alone.  This holds
    for the three kinds of drag, whether or not the caption is in the
    collection. *)
Theorem caption_gesture_depends_on_last_move
    (seg : Caption.segment) (ty : CaptionTrack.DragType) (x0 : Q)
    (moves : list (Q * Q)) (m : Q * Q) (s : CaptionTrack.Signals)
    (w : World) :
  let g := CaptionTrack.gesture seg ty x0 (moves ++ [m]) s w in
  let g1 := CaptionTrack.gesture seg ty x0 [m] s w in
  fst g = fst g1 /\
  project (snd g) = project (snd g1) /\
  editorState (snd g) = editorState (snd g1).
Proof.
  unfold CaptionTrack.gesture, CaptionTrack.handleMouseDown.
  destruct (CaptionTrack.isEditing s); [repeat split|].
  set (d := {| CaptionTrack.type := ty; CaptionTrack.startPos := x0;
               CaptionTrack.startSegment := seg |}).
  cbv zeta. split; [reflexivity|]. split.
  - exact (caption_ticks_last d moves m (CaptionTrack.onSelect seg w)).
  - destruct (Claims.caption_ticks_calls d (moves ++ [m])
                (CaptionTrack.onSelect seg w)) as (_ & _ & _ & He).
    destruct (Claims.caption_ticks_calls d [m]
                (CaptionTrack.onSelect seg w)) as (_ & _ & _ & He1).
    change (editorState
              (CaptionTrack.ticks d (moves ++ [m])
                 (CaptionTrack.onSelect seg w)) =
            editorState
              (CaptionTrack.ticks d [m] (CaptionTrack.onSelect seg w))).
    rewrite He, He1. reflexivity.
Qed.





(** X4.  A caption gesture whose segment id is not in the collection (or
    with no collection at all) leaves the project as it is: its only calls
    are the selection and the two refresh requests of mouse down and mouse
    up, and none of them when the caption is being edited. *)
Theorem caption_gesture_on_missing_id
    (seg : Caption.segment) (ty : CaptionTrack.DragType) (x0 : Q)
    (moves : list (Q * Q)) (s : CaptionTrack.Signals) (w : World) :
  (forall segs, captions_segments w = Some segs ->
     findIndex (CaptionTrack.same_id (Caption.id seg)) segs = None) ->
  let w' := snd (CaptionTrack.gesture seg ty x0 moves s w) in
  project w' = project w /\
  calls w' =
    calls w ++
    (if CaptionTrack.isEditing s then []
     else [SetEditorState; SetTimeout 100; SetTimeout 100]).
Proof.
  intros H w'. subst w'.
  unfold CaptionTrack.gesture, CaptionTrack.handleMouseDown.
  destruct (CaptionTrack.isEditing s).
  - simpl. rewrite app_nil_r. split; reflexivity.
  - rewrite caption_ticks_absent by exact H. simpl.
    rewrite <- !app_assoc. split; reflexivity.
Qed.

Lemma caption_gesture_on_missing_id_witness :
  let w := Sample.world (Some [Sample.B]) None 0 10 in
  let w' :=
    snd (CaptionTrack.gesture Sample.A CaptionTrack.DragMove 100
           [(103, 1); (106, 1)]%Q Sample.signals w) in
  (forall segs, captions_segments w = Some segs ->
     findIndex (CaptionTrack.same_id (Caption.id Sample.A)) segs = None) /\
  project w' = project w /\
  calls w' =
    calls w ++
    (if CaptionTrack.isEditing Sample.signals then []
     else [SetEditorState; SetTimeout 100; SetTimeout 100]).
Proof.
  intros w w'.
  assert (forall segs, captions_segments w = Some segs ->
            findIndex (CaptionTrack.same_id (Caption.id Sample.A)) segs =
            None) as H.
  { intros segs [= <-]. reflexivity. }
  split; [exact H|].
  exact (caption_gesture_on_missing_id Sample.A CaptionTrack.DragMove 100
           [(103, 1); (106, 1)]%Q Sample.signals w H).
Defined.

(** ** Scene gestures *)

Lemma scene_ticks_snoc (ds : SceneTrack.SceneSegmentDragState)
    (index : nat) (x0 : Q) (s0 : Scene.segment) (moves : list (Q * Q))
    (m : Q * Q) (w : World) :
  SceneTrack.ticks ds index x0 s0 (moves ++ [m]) w =
  SceneTrack.mousemove ds index x0 s0 (fst m) (snd m)
    (SceneTrack.ticks ds index x0 s0 moves w).
Proof. unfold SceneTrack.ticks. rewrite fold_left_app. reflexivity. Qed.

(** With no array, or with the row's index past its end, a tick leaves the
    project as it is. *)
Lemma scene_mousemove_missing (ds : SceneTrack.SceneSegmentDragState)
    (index : nat) (x0 : Q) (s0 : Scene.segment) (x spp : Q) (w : World) :
  (forall l, sceneSegments (project w) = Some l -> l !! index = None) ->
  project (SceneTrack.mousemove ds index x0 s0 x spp w) = project w.
Proof.
  intros H. unfold SceneTrack.mousemove,
    SceneTrack.setProject_sceneSegments_at.
  destruct (sceneSegments (project w)) as [l|] eqn:Hl;
    [rewrite (H l eq_refl)|]; destruct ds; reflexivity.
Qed.

Lemma scene_ticks_missing (ds : SceneTrack.SceneSegmentDragState)
    (index : nat) (x0 : Q) (s0 : Scene.segment) (moves : list (Q * Q))
    (w : World) :
  (forall l, sceneSegments (project w) = Some l -> l !! index = None) ->
  project (SceneTrack.ticks ds index x0 s0 moves w) = project w.
Proof.
  revert w. induction moves as [|m moves IH]; intros w H; [reflexivity|].
  rewrite SceneFacts.scene_ticks_cons.
  pose proof (scene_mousemove_missing ds index x0 s0 (fst m) (snd m) w H)
    as Hp.
  rewrite IH; [exact Hp|]. rewrite Hp. exact H.
Qed.

Lemma project_of_scenes (w : World) (l : list Scene.segment) :
  sceneSegments (project w) = Some l ->
  project w =
  {| captions := captions (project w); sceneSegments := Some l |}.
Proof. destruct w as [[c sc] e cs]. simpl. intros ->. reflexivity. Qed.

(** One tick on the element at the row's index: the project it leaves,
    read off any element that agrees with the current one on what the
    gesture keeps. *)
Lemma scene_mousemove_shape (ds : SceneTrack.SceneSegmentDragState)
    (index : nat) (x0 : Q) (s0 : Scene.segment) (x spp : Q) (w : World)
    (l : list Scene.segment) (cur0 cur : Scene.segment) :
  sceneSegments (project w) = Some (<[index := cur]> l) ->
  (index < length l)%nat ->
  SceneSegmentView.kept ds cur0 cur ->
  exists c1,
    project (SceneTrack.mousemove ds index x0 s0 x spp w) =
      {| captions := captions (project w);
         sceneSegments := Some (<[index := c1]> l) |} /\
    SceneSegmentView.kept ds cur0 c1 /\
    forall w0,
      sceneSegments (project w0) = Some (<[index := cur0]> l) ->
      captions (project w0) = captions (project w) ->
      project (SceneTrack.mousemove ds index x0 s0 x spp w0) =
      {| captions := captions (project w);
         sceneSegments := Some (<[index := c1]> l) |}.
Proof.
  intros Hl Hi Hk.
  assert (<[index := cur]> l !! index = Some cur) as Hc
    by (apply list_lookup_insert_eq; exact Hi).
  assert (<[index := cur0]> l !! index = Some cur0) as Hc0
    by (apply list_lookup_insert_eq; exact Hi).
  unfold SceneTrack.mousemove.
  destruct ds as [|i0 y0 t0|i0 y0 t0|i0 y0 t0]; simpl in Hk.
  - subst cur0. exists cur. split; [apply project_of_scenes; exact Hl|].
    split; [reflexivity|].
    intros w0 Hl0 Hcap. rewrite <- Hcap. apply project_of_scenes. exact Hl0.
  - rewrite (SceneFacts.set_at_found _ _ w _ cur Hl Hc).
    eexists. simpl. rewrite list_insert_insert_eq.
    split; [reflexivity|]. split; [exact Hk|].
    intros w0 Hl0 Hcap.
    rewrite (SceneFacts.set_at_found _ _ w0 _ cur0 Hl0 Hc0). simpl.
    rewrite list_insert_insert_eq, Hcap, Hk. reflexivity.
  - destruct Hk as [Hm He].
    rewrite (SceneFacts.set_at_found _ _ w _ cur Hl Hc).
    eexists. simpl. rewrite list_insert_insert_eq.
    split; [reflexivity|]. split; [split; assumption|].
    intros w0 Hl0 Hcap.
    rewrite (SceneFacts.set_at_found _ _ w0 _ cur0 Hl0 Hc0). simpl.
    rewrite list_insert_insert_eq, Hcap, Hm, He. reflexivity.
  - destruct Hk as [Hm He].
    rewrite (SceneFacts.set_at_found _ _ w _ cur Hl Hc).
    eexists. simpl. rewrite list_insert_insert_eq.
    split; [reflexivity|]. split; [split; assumption|].
    intros w0 Hl0 Hcap.
    rewrite (SceneFacts.set_at_found _ _ w0 _ cur0 Hl0 Hc0). simpl.
    rewrite list_insert_insert_eq, Hcap, Hm, He. reflexivity.
Qed.

Lemma scene_kept_refl (ds : SceneTrack.SceneSegmentDragState)
    (a : Scene.segment) : SceneSegmentView.kept ds a a.
Proof. destruct ds; simpl; repeat split. Qed.

Lemma scene_ticks_shape (ds : SceneTrack.SceneSegmentDragState)
    (index : nat) (x0 : Q) (s0 : Scene.segment) (moves : list (Q * Q))
    (w : World) (l : list Scene.segment) (cur0 cur : Scene.segment) :
  sceneSegments (project w) = Some (<[index := cur]> l) ->
  (index < length l)%nat ->
  SceneSegmentView.kept ds cur0 cur ->
  exists c',
    project (SceneTrack.ticks ds index x0 s0 moves w) =
      {| captions := captions (project w);
         sceneSegments := Some (<[index := c']> l) |} /\
    SceneSegmentView.kept ds cur0 c'.
Proof.
  revert w cur. induction moves as [|m moves IH]; intros w cur Hl Hi Hk.
  - exists cur. split; [apply project_of_scenes; exact Hl | exact Hk].
  - rewrite SceneFacts.scene_ticks_cons.
    destruct (scene_mousemove_shape ds index x0 s0 (fst m) (snd m) w l
                cur0 cur Hl Hi Hk) as (c1 & Hp & Hk1 & _).
    destruct (IH (SceneTrack.mousemove ds index x0 s0 (fst m) (snd m) w) c1)
      as (c2 & Hp2 & Hk2).
    + rewrite Hp. reflexivity.
    + exact Hi.
    + exact Hk1.
    + exists c2. rewrite Hp2, Hp. split; [reflexivity | exact Hk2].
Qed.

(** The ticks of a scene gesture do not accumulate either. *)
Lemma scene_ticks_last (ds : SceneTrack.SceneSegmentDragState)
    (index : nat) (x0 : Q) (s0 : Scene.segment) (moves : list (Q * Q))
    (m : Q * Q) (w : World) :
  project (SceneTrack.ticks ds index x0 s0 (moves ++ [m]) w) =
  project (SceneTrack.ticks ds index x0 s0 [m] w).
Proof.
  destruct (sceneSegments (project w)) as [l|] eqn:Hl.
  - destruct (l !! index) as [cur0|] eqn:Hc.
    + rewrite scene_ticks_snoc.
      assert (index < length l)%nat as Hi
        by (eapply lookup_lt_Some; exact Hc).
      assert (sceneSegments (project w) = Some (<[index := cur0]> l)) as Hl'
        by (rewrite list_insert_id by exact Hc; exact Hl).
      destruct (scene_ticks_shape ds index x0 s0 moves w l cur0 cur0
                  Hl' Hi (scene_kept_refl ds cur0)) as (c' & Hp & Hk).
      destruct (scene_mousemove_shape ds index x0 s0 (fst m) (snd m)
                  (SceneTrack.ticks ds index x0 s0 moves w) l cur0 c')
        as (c1 & Hp1 & _ & Hsame).
      * rewrite Hp. reflexivity.
      * exact Hi.
      * exact Hk.
      * rewrite Hp1. symmetry.
        change (SceneTrack.ticks ds index x0 s0 [m] w) with
          (SceneTrack.mousemove ds index x0 s0 (fst m) (snd m) w).
        apply Hsame; [exact Hl'|]. rewrite Hp. reflexivity.
    + rewrite !scene_ticks_missing; try reflexivity;
        intros l' Hl'; rewrite Hl in Hl'; injection Hl' as <-; exact Hc.
  - rewrite !scene_ticks_missing; try reflexivity;
      intros l' Hl'; rewrite Hl in Hl'; discriminate Hl'.
Qed.

(** X5.  Where a scene drag gesture ends is all that counts: with any
    pointer moves before its last one, the gesture leaves the same drag
    state, project and editor state as with the last move alone. *)
Theorem scene_gesture_depends_on_last_move
    (sseg : Scene.segment) (index : nat) (x0 relativeX pixelWidth : Q)
    (moves : list (Q * Q)) (m : Q * Q) (w : World) :
  let g := SceneTrack.gesture sseg index x0 relativeX pixelWidth
             (moves ++ [m]) w in
  let g1 := SceneTrack.gesture sseg index x0 relativeX pixelWidth [m] w in
  fst g = fst g1 /\
  project (snd g) = project (snd g1) /\
  editorState (snd g) = editorState (snd g1).
Proof.
  unfold SceneTrack.gesture, SceneTrack.onMouseDown, SceneTrack.mouseup.
  cbv zeta. cbn [fst snd].
  set (ds := SceneTrack.startDrag relativeX pixelWidth index x0 sseg).
  set (w1 := setEditorState_selection (Some (SelScene index)) w).
  split; [reflexivity|]. split.
  - exact (scene_ticks_last ds index x0 sseg moves m w1).
  - destruct (Claims.scene_ticks_calls ds index x0 sseg (moves ++ [m]) w1
                (SceneFacts.startDrag_dragging _ _ _ _ _)) as [_ He].
    destruct (Claims.scene_ticks_calls ds index x0 sseg [m] w1
                (SceneFacts.startDrag_dragging _ _ _ _ _)) as [_ He1].
    rewrite He, He1. reflexivity.
Qed.

Local Open Scope Q_scope.

Lemma startDrag_cases (relativeX pixelWidth : Q) (index : nat) (x0 : Q)
    (seg : Scene.segment) :
  (relativeX < 10 /\
   SceneTrack.startDrag relativeX pixelWidth index x0 seg =
   SceneTrack.resizing_start index x0 seg) \/
  (10 <= relativeX /\ pixelWidth - 10 < relativeX /\
   SceneTrack.startDrag relativeX pixelWidth index x0 seg =
   SceneTrack.resizing_end index x0 seg) \/
  (10 <= relativeX /\ relativeX <= pixelWidth - 10 /\
   SceneTrack.startDrag relativeX pixelWidth index x0 seg =
   SceneTrack.moving index x0 seg).
Proof.
  unfold SceneTrack.startDrag, SceneTrack.edgeThreshold.
  destruct (Qle_bool 10 relativeX) eqn:H1; simpl.
  - apply Qle_bool_iff in H1.
    destruct (Qle_bool relativeX (pixelWidth - 10)) eqn:H2; simpl.
    + apply Qle_bool_iff in H2. right. right. repeat split; assumption.
    + right. left. split; [exact H1|]. split; [|reflexivity].
      apply Qnot_le_lt. intros H. apply Qle_bool_iff in H. congruence.
  - left. split; [|reflexivity].
    apply Qnot_le_lt. intros H. apply Qle_bool_iff in H. congruence.
Qed.

(** X6.  The zones of a scene element at mouse down: the first 10 px
    resize the start, what lies past the last 10 px resizes the end (the
    start zone wins where the two overlap), and only the part in between
    moves the segment.  An element narrower than 20 px has no such part,
    so it can be resized but never moved. *)
Theorem scene_drag_zones (relativeX pixelWidth : Q) (index : nat) (x0 : Q)
    (seg : Scene.segment) :
  let ds := SceneTrack.startDrag relativeX pixelWidth index x0 seg in
  (ds = SceneTrack.resizing_start index x0 seg <-> relativeX < 10) /\
  (ds = SceneTrack.resizing_end index x0 seg <->
   10 <= relativeX /\ pixelWidth - 10 < relativeX) /\
  (ds = SceneTrack.moving index x0 seg <->
   10 <= relativeX /\ relativeX <= pixelWidth - 10) /\
  (pixelWidth < 20 -> ds <> SceneTrack.moving index x0 seg) /\
  ds <> SceneTrack.idle.
Proof.
  intros ds. subst ds.
  destruct (startDrag_cases relativeX pixelWidth index x0 seg)
    as [[H1 ->] | [(H1 & H2 & ->) | (H1 & H2 & ->)]].
  - split; [split; [intros _; exact H1 | reflexivity]|].
    split; [split; [discriminate | intros [H _]; lra]|].
    split; [split; [discriminate | intros [H _]; lra]|].
    split; [intros _; discriminate | discriminate].
  - split; [split; [discriminate | intros H; lra]|].
    split; [split; [intros _; split; assumption | reflexivity]|].
    split; [split; [discriminate | intros [_ H]; lra]|].
    split; [intros _; discriminate | discriminate].
  - split; [split; [discriminate | intros H; lra]|].
    split; [split; [discriminate | intros [_ H]; lra]|].
    split; [split; [intros _; split; assumption | reflexivity]|].
    split; [intros H; lra | discriminate].
Qed.



(** ** Adding into a sorted collection *)

Section SortSnoc.
Context {A : Type} (key : A -> Q).


End SortSnoc.




(** ** What is drawn *)

Lemma lt_iff (a b : Q) : CaptionSegment.lt a b = true <-> a < b.
Proof.
  unfold CaptionSegment.lt. rewrite negb_true_iff. split.
  - intros H. apply Qnot_le_lt. intros Hle. apply Qle_bool_iff in Hle.
    congruence.
  - intros H. destruct (Qle_bool b a) eqn:Hb; [|reflexivity].
    apply Qle_bool_iff in Hb. lra.
Qed.

Lemma js_div_pos (a b : Q) :
  0 < b -> exists x, js_div a b = Some x /\ x * b == a.
Proof.
  intros Hb. pose proof (Claims.js_div_spec a b) as H.
  destruct (js_div a b) as [x|]; [|lra].
  exists x. split; [reflexivity | apply H].
Qed.

Lemma scaled_pos (x b : Q) : 0 < b -> (0 < x <-> 0 < x * b).
Proof.
  intros Hb. split; intros H.
  - apply Qmult_lt_0_compat; assumption.
  - destruct (Qlt_le_dec 0 x) as [Hx|Hx]; [exact Hx|].
    assert (x * b <= 0 * b) as Hle by (apply Qmult_le_compat_r; lra).
    lra.
Qed.

(** X10.  With a positive [secsPerPixel()], a caption element and a scene
    element are drawn exactly when the segment meets the visible window:
    it ends after the window's left edge, [position], and starts before
    its right edge, [position + width * secsPerPixel()], where a missing
    track width counts as 0 (nothing is drawn then). *)
Theorem drawn_iff_in_window
    (cseg : Caption.segment) (sseg : Scene.segment)
    (position secsPerPixel : Q) (trackBounds_width : option Q) :
  0 < secsPerPixel ->
  let right := position + default 0 trackBounds_width * secsPerPixel in
  (exists b,
     CaptionSegment.isVisible cseg position secsPerPixel trackBounds_width =
       Some b /\
     (b = true <->
      position < Caption.end_ cseg /\ Caption.start cseg < right)) /\
  (exists b,
     SceneSegmentView.shown sseg position secsPerPixel trackBounds_width =
       Some b /\
     (b = true <->
      position < Scene.end_ sseg /\ Scene.start sseg < right)).
Proof.
  intros Hp right. subst right.
  set (tw := default 0 trackBounds_width).
  split.
  - unfold CaptionSegment.isVisible, CaptionTrack.startX, CaptionTrack.width.
    destruct (js_div_pos (Caption.start cseg - position) secsPerPixel Hp)
      as (sx & -> & Hsx).
    destruct (js_div_pos (Caption.end_ cseg - Caption.start cseg)
                secsPerPixel Hp) as (wd & -> & Hwd).
    eexists. split; [reflexivity|]. fold tw.
    rewrite andb_true_iff, !lt_iff.
    rewrite (scaled_pos (sx + wd) secsPerPixel Hp).
    assert (sx < tw <-> 0 < (tw - sx) * secsPerPixel) as ->.
    { rewrite <- (scaled_pos (tw - sx) secsPerPixel Hp). split; lra. }
    assert ((sx + wd) * secsPerPixel ==
            Caption.end_ cseg - position) as -> by (ring_simplify; lra).
    assert ((tw - sx) * secsPerPixel ==
            tw * secsPerPixel - (Caption.start cseg - position)) as ->
      by (ring_simplify; lra).
    split; intros [H1 H2]; split; lra.
  - unfold SceneSegmentView.shown, SceneTrack.segmentPixelEnd,
      SceneTrack.segmentPixelStart.
    destruct (js_div_pos (Scene.end_ sseg - position) secsPerPixel Hp)
      as (pe & -> & Hpe).
    destruct (js_div_pos (Scene.start sseg - position) secsPerPixel Hp)
      as (ps & -> & Hps).
    eexists. split; [reflexivity|]. fold tw.
    rewrite andb_true_iff, !lt_iff.
    rewrite (scaled_pos pe secsPerPixel Hp).
    assert (ps < tw <-> 0 < (tw - ps) * secsPerPixel) as ->.
    { rewrite <- (scaled_pos (tw - ps) secsPerPixel Hp). split; lra. }
    assert ((tw - ps) * secsPerPixel ==
            tw * secsPerPixel - (Scene.start sseg - position)) as ->
      by (ring_simplify; lra).
    split; intros [H1 H2]; split; lra.
Qed.

Lemma drawn_iff_in_window_witness :
  let right := 10 + default 0 (Some 200) * (1#20) in
  0 < 1#20 /\
  (CaptionSegment.isVisible Sample.B 10 (1#20) (Some 200) = Some false /\
   SceneSegmentView.shown (Scene.mk 9 12 Scene.default) 10 (1#20)
     (Some 200) = Some true) /\
  (exists b,
     CaptionSegment.isVisible Sample.B 10 (1#20) (Some 200) = Some b /\
     (b = true <->
      10 < Caption.end_ Sample.B /\ Caption.start Sample.B < right)) /\
  (exists b,
     SceneSegmentView.shown (Scene.mk 9 12 Scene.default) 10 (1#20)
       (Some 200) = Some b /\
     (b = true <->
      10 < Scene.end_ (Scene.mk 9 12 Scene.default) /\
      Scene.start (Scene.mk 9 12 Scene.default) < right)).
Proof.
  intros right.
  assert (0 < 1#20) as Hp by lra.
  split; [exact Hp|]. split; [split; vm_compute; reflexivity|].
  exact (drawn_iff_in_window Sample.B (Scene.mk 9 12 Scene.default) 10
           (1#20) (Some 200) Hp).
Defined.

(** ** The inline editor *)

Lemma session_cons (seg : Caption.segment) (ev : CaptionSegment.inputEvent)
    (evs : list CaptionSegment.inputEvent)
    (r : CaptionTrack.Signals * World) :
  CaptionSegment.session seg (ev :: evs) r =
  CaptionSegment.session seg evs
    (CaptionTrack.andThen r (CaptionSegment.handle seg ev)).
Proof. reflexivity. Qed.

Lemma session_app (seg : Caption.segment)
    (evs evs' : list CaptionSegment.inputEvent)
    (r : CaptionTrack.Signals * World) :
  CaptionSegment.session seg (evs ++ evs') r =
  CaptionSegment.session seg evs' (CaptionSegment.session seg evs r).
Proof. unfold CaptionSegment.session. apply fold_left_app. Qed.

(** Typing changes the edit buffer only. *)
Lemma typing_session (seg : Caption.segment)
    (evs : list CaptionSegment.inputEvent) (s : CaptionTrack.Signals)
    (w : World) :
  forallb CaptionSegment.typing evs = true ->
  let r := CaptionSegment.session seg evs (s, w) in
  project (snd r) = project w /\
  editorState (snd r) = editorState w /\
  CaptionTrack.isEditing (fst r) = CaptionTrack.isEditing s /\
  CaptionTrack.isDragging (fst r) = CaptionTrack.isDragging s /\
  CaptionTrack.editText (fst r) =
    CaptionSegment.lastInput (CaptionTrack.editText s) evs.
Proof.
  revert s w. induction evs as [|ev evs IH]; intros s w Hty.
  - repeat split.
  - simpl in Hty. apply andb_true_iff in Hty as [Hev Hty].
    rewrite session_cons. destruct ev as [v|k|]; [| |discriminate].
    + destruct (IH (CaptionTrack.setEditText v s) (setTimeout 50 w) Hty)
        as (H1 & H2 & H3 & H4 & H5).
      repeat split; assumption.
    + assert (CaptionTrack.andThen (s, w)
                (CaptionSegment.handle seg (CaptionSegment.KeyDown k)) =
              (s, w)) as ->.
      { unfold CaptionTrack.andThen. simpl.
        unfold CaptionTrack.onKeyDown. simpl in Hev.
        apply negb_true_iff, orb_false_iff in Hev as [-> ->].
        reflexivity. }
      exact (IH s w Hty).
Qed.

(** X11.  While the editor is open, typing never touches the project:
    after any inputs and any keys other than Enter and Escape, the project
    and the editor state are as before, the editor is still open if it was
    and the buffer holds the last input.  Escape after that closes the
    editor with the project still as it was before the first keystroke,
    and the buffer goes back to the stored text. *)
Theorem typing_then_escape_leaves_project
    (seg : Caption.segment) (evs : list CaptionSegment.inputEvent)
    (s : CaptionTrack.Signals) (w : World) :
  forallb CaptionSegment.typing evs = true ->
  let typed := CaptionSegment.session seg evs (s, w) in
  let escaped :=
    CaptionSegment.session seg
      (evs ++ [CaptionSegment.KeyDown "Escape"]) (s, w) in
  (project (snd typed) = project w /\
   editorState (snd typed) = editorState w /\
   CaptionTrack.isEditing (fst typed) = CaptionTrack.isEditing s /\
   CaptionTrack.editText (fst typed) =
     CaptionSegment.lastInput (CaptionTrack.editText s) evs) /\
  (project (snd escaped) = project w /\
   CaptionTrack.isEditing (fst escaped) = false /\
   forall isSelected,
     CaptionTrack.editText
       (CaptionTrack.effects seg isSelected (fst escaped)) =
     Caption.text seg).
Proof.
  intros Hty typed escaped.
  destruct (typing_session seg evs s w Hty) as (H1 & H2 & H3 & _ & H5).
  fold typed in H1, H2, H3, H5.
  split; [repeat split; assumption|].
  subst escaped. rewrite session_app. fold typed.
  destruct typed as [s1 w1]. simpl in *.
  split; [exact H1|]. split; [reflexivity|].
  intros isSelected. unfold CaptionTrack.effects. simpl.
  rewrite andb_false_r. reflexivity.
Qed.

Lemma typing_then_escape_witness :
  let evs := [CaptionSegment.Input "h"; CaptionSegment.KeyDown "i";
              CaptionSegment.Input "hi!"; CaptionSegment.KeyDown "Tab"] in
  let w := Sample.world (Some [Sample.A; Sample.B]) None 0 10 in
  let s := CaptionTrack.setIsEditing true Sample.signals in
  let typed := CaptionSegment.session Sample.A evs (s, w) in
  let escaped :=
    CaptionSegment.session Sample.A
      (evs ++ [CaptionSegment.KeyDown "Escape"]) (s, w) in
  forallb CaptionSegment.typing evs = true /\
  (project (snd typed) = project w /\
   editorState (snd typed) = editorState w /\
   CaptionTrack.isEditing (fst typed) = CaptionTrack.isEditing s /\
   CaptionTrack.editText (fst typed) =
     CaptionSegment.lastInput (CaptionTrack.editText s) evs) /\
  (project (snd escaped) = project w /\
   CaptionTrack.isEditing (fst escaped) = false /\
   forall isSelected,
     CaptionTrack.editText
       (CaptionTrack.effects Sample.A isSelected (fst escaped)) =
     Caption.text Sample.A).
Proof.
  intros evs w s typed escaped. split; [reflexivity|].
  exact (typing_then_escape_leaves_project Sample.A evs s w eq_refl).
Defined.

(** [saveEdit] writes the buffer into the caption found by id and closes
    the editor; the buffer itself is kept. *)
Lemma saveEdit_result (seg : Caption.segment) (s : CaptionTrack.Signals)
    (w : World) (segs : list Caption.segment) (i : nat)
    (cur : Caption.segment) :
  captions_segments w = Some segs ->
  findIndex (CaptionTrack.same_id (Caption.id seg)) segs = Some i ->
  segs !! i = Some cur ->
  let r := CaptionTrack.saveEdit seg s w in
  captions_segments (snd r) =
    Some (<[i := Caption.mk (Caption.id cur) (Caption.start cur)
                   (Caption.end_ cur) (CaptionTrack.editText s)]> segs) /\
  CaptionTrack.editText (fst r) = CaptionTrack.editText s /\
  CaptionTrack.isEditing (fst r) = false.
Proof.
  intros Hs Hi Hc r. subst r.
  rewrite (Claims.saveEdit_found seg s w segs i cur Hs Hi Hc).
  repeat split.
Qed.

(** X12.  After any typing, the handler of Enter stores the last input as
    the text of the caption found by id, keeping its id, start and end;
    the handler of the loss of focus does the same; and the two run one
    after the other store the same collection as one of them, so
    committing twice is committing once. *)
Theorem commit_stores_last_input
    (seg : Caption.segment) (evs : list CaptionSegment.inputEvent)
    (s : CaptionTrack.Signals) (w : World)
    (segs : list Caption.segment) (i : nat) (cur : Caption.segment) :
  forallb CaptionSegment.typing evs = true ->
  captions_segments w = Some segs ->
  findIndex (CaptionTrack.same_id (Caption.id seg)) segs = Some i ->
  segs !! i = Some cur ->
  let committed :=
    <[i := Caption.mk (Caption.id cur) (Caption.start cur)
             (Caption.end_ cur)
             (CaptionSegment.lastInput (CaptionTrack.editText s) evs)]>
      segs in
  let after tail :=
    captions_segments
      (snd (CaptionSegment.session seg (evs ++ tail) (s, w))) in
  after [CaptionSegment.KeyDown "Enter"] = Some committed /\
  after [CaptionSegment.Blur] = Some committed /\
  after [CaptionSegment.KeyDown "Enter"; CaptionSegment.Blur] =
    Some committed.
Proof.
  intros Hty Hs Hi Hc committed after. subst after. cbv beta.
  rewrite !session_app.
  destruct (typing_session seg evs s w Hty) as (H1 & _ & _ & _ & H5).
  destruct (CaptionSegment.session seg evs (s, w)) as [s1 w1].
  simpl in H1, H5.
  assert (captions_segments w1 = Some segs) as Hs1.
  { unfold captions_segments. rewrite H1. exact Hs. }
  destruct (saveEdit_result seg s1 w1 segs i cur Hs1 Hi Hc)
    as (Hr & Ht & _).
  rewrite H5 in Hr. fold committed in Hr.
  assert (CaptionSegment.session seg [CaptionSegment.KeyDown "Enter"]
            (s1, w1) = CaptionTrack.saveEdit seg s1 w1) as HE
    by reflexivity.
  split; [rewrite HE; exact Hr|]. split; [exact Hr|].
  change (CaptionSegment.session seg
            [CaptionSegment.KeyDown "Enter"; CaptionSegment.Blur] (s1, w1))
    with (CaptionTrack.andThen (CaptionTrack.saveEdit seg s1 w1)
            (CaptionTrack.onBlur seg)).
  destruct (CaptionTrack.saveEdit seg s1 w1) as [s2 w2].
  simpl in Hr, Ht. unfold CaptionTrack.andThen, CaptionTrack.onBlur.
  cbn [fst snd].
  assert (exists cur2, committed !! i = Some cur2 /\
            Caption.id cur2 = Caption.id cur /\
            Caption.start cur2 = Caption.start cur /\
            Caption.end_ cur2 = Caption.end_ cur) as (cur2 & Hc2 & E1 & E2 & E3).
  { eexists. split; [apply list_lookup_insert_eq;
                     eapply lookup_lt_Some; exact Hc|].
    repeat split. }
  assert (findIndex (CaptionTrack.same_id (Caption.id seg)) committed =
          Some i) as Hi2.
  { rewrite <- Hi. apply findIndex_insert with (x := cur); [exact Hc|].
    reflexivity. }
  destruct (saveEdit_result seg s2 w2 committed i cur2 Hr Hi2 Hc2)
    as (Hr2 & _ & _).
  change (captions_segments (setTimeout 300 (CaptionTrack.saveEdit seg s2 w2).2))
    with (captions_segments (CaptionTrack.saveEdit seg s2 w2).2).
  rewrite Hr2, Ht, H5, E1, E2, E3.
  unfold committed. rewrite list_insert_insert_eq. reflexivity.
Qed.

Lemma commit_stores_last_input_witness :
  let evs := [CaptionSegment.Input "h"; CaptionSegment.Input "hello"] in
  let w := Sample.world (Some [Sample.A; Sample.B]) None 0 10 in
  let s := CaptionTrack.setIsEditing true Sample.signals in
  let committed :=
    <[1%nat :=
        Caption.mk (Caption.id Sample.B) (Caption.start Sample.B)
          (Caption.end_ Sample.B)
          (CaptionSegment.lastInput (CaptionTrack.editText s) evs)]>
      [Sample.A; Sample.B] in
  let after tail :=
    captions_segments
      (snd (CaptionSegment.session Sample.B (evs ++ tail) (s, w))) in
  (forallb CaptionSegment.typing evs = true /\
   captions_segments w = Some [Sample.A; Sample.B] /\
   findIndex (CaptionTrack.same_id (Caption.id Sample.B))
     [Sample.A; Sample.B] = Some 1%nat /\
   [Sample.A; Sample.B] !! 1%nat = Some Sample.B) /\
  committed = [Sample.A; Caption.mk "B" 5 8 "hello"] /\
  after [CaptionSegment.KeyDown "Enter"] = Some committed /\
  after [CaptionSegment.Blur] = Some committed /\
  after [CaptionSegment.KeyDown "Enter"; CaptionSegment.Blur] =
    Some committed.
Proof.
  intros evs w s committed after.
  split; [repeat split|]. split; [reflexivity|].
  exact (commit_stores_last_input Sample.B evs s w [Sample.A; Sample.B]
           1%nat Sample.B eq_refl eq_refl eq_refl eq_refl).
Defined.

(** X13.  Selecting another caption closes this caption's editor: after
    [onSelect] of a caption with a different id, this caption is not the
    selection, so the effects of its component end the editing and put the
    stored text back into the buffer; none of this writes the project. *)
Theorem selecting_another_caption_closes_editor
    (seg other : Caption.segment) (s : CaptionTrack.Signals) (w : World) :
  Caption.id other <> Caption.id seg ->
  let w' := CaptionTrack.onSelect other w in
  let s' := CaptionTrack.effects seg (CaptionTrack.isSelected seg w') s in
  CaptionTrack.isSelected other w' = true /\
  CaptionTrack.isSelected seg w' = false /\
  CaptionTrack.isEditing s' = false /\
  CaptionTrack.editText s' = Caption.text seg /\
  project w' = project w.
Proof.
  intros Hne w' s'. subst s' w'.
  unfold CaptionTrack.isSelected, CaptionTrack.onSelect. simpl.
  rewrite String.eqb_refl.
  assert (String.eqb (Caption.id other) (Caption.id seg) = false) as ->
    by (apply String.eqb_neq; exact Hne).
  unfold CaptionTrack.effects. simpl.
  destruct (CaptionTrack.isEditing s) eqn:He; simpl; rewrite ?He; simpl;
    repeat split; exact He.
Qed.

Lemma selecting_another_caption_witness :
  let s := CaptionTrack.setEditText "typed"
             (CaptionTrack.setIsEditing true Sample.signals) in
  let w := Sample.world (Some [Sample.A; Sample.B]) None 0 10 in
  let w' := CaptionTrack.onSelect Sample.B w in
  let s' :=
    CaptionTrack.effects Sample.A (CaptionTrack.isSelected Sample.A w') s in
  Caption.id Sample.B <> Caption.id Sample.A /\
  CaptionTrack.isSelected Sample.B w' = true /\
  CaptionTrack.isSelected Sample.A w' = false /\
  CaptionTrack.isEditing s' = false /\
  CaptionTrack.editText s' = Caption.text Sample.A /\
  project w' = project w.
Proof.
  intros s w w' s'.
  assert (Caption.id Sample.B <> Caption.id Sample.A) as Hne
    by discriminate.
  split; [exact Hne|].
  exact (selecting_another_caption_closes_editor Sample.A Sample.B s w Hne).
Defined.

(** X14.  One click on a caption that is not being edited opens its
    editor, whether or not the caption was selected before: the mouse down
    of the click selects it, so [onClick] finds it selected.  The buffer
    is the stored text and the project is not written. *)
Theorem click_opens_editor
    (seg : Caption.segment) (clientX : Q) (s : CaptionTrack.Signals)
    (w : World) :
  CaptionTrack.isEditing s = false ->
  let r := CaptionSegment.click seg clientX s w in
  CaptionTrack.isEditing (fst r) = true /\
  CaptionTrack.editText (fst r) = Caption.text seg /\
  selection (timeline (editorState (snd r))) =
    Some (SelCaption (Caption.id seg)) /\
  project (snd r) = project w.
Proof.
  intros He r. subst r.
  unfold CaptionSegment.click, CaptionTrack.gesture,
    CaptionTrack.handleMouseDown. rewrite He.
  unfold CaptionTrack.andThen, CaptionSegment.onClick. simpl.
  unfold CaptionTrack.isSelected. simpl. rewrite String.eqb_refl. simpl.
  rewrite He. simpl. repeat split.
Qed.

Lemma click_opens_editor_witness :
  let w := Sample.world (Some [Sample.A; Sample.B]) None 0 10 in
  let r := CaptionSegment.click Sample.A 120 Sample.signals w in
  CaptionTrack.isEditing Sample.signals = false /\
  CaptionTrack.isSelected Sample.A w = false /\
  CaptionTrack.isEditing (fst r) = true /\
  CaptionTrack.editText (fst r) = Caption.text Sample.A /\
  selection (timeline (editorState (snd r))) =
    Some (SelCaption (Caption.id Sample.A)) /\
  project (snd r) = project w.
Proof.
  intros w r. split; [reflexivity|]. split; [reflexivity|].
  exact (click_opens_editor Sample.A 120 Sample.signals w eq_refl).
Defined.

(** ** The caption export panel *)

(** ** The caption export panel *)

Lemma export_step_consistent (prettyName : string)
    (p : CaptionExport.Panel) (e : CaptionExport.event) :
  CaptionExport.consistent p ->
  CaptionExport.consistent (CaptionExport.step prettyName p e).
Proof.
  unfold CaptionExport.consistent. intros [Hst Hn].
  destruct e as [f|k result]; simpl.
  - unfold CaptionExport.exportCaptionToString.
    destruct Hst as [(He & Hp & Hf) | (He & g & Hp & Hf)]; rewrite He.
    + simpl. rewrite Hp in *. simpl in *. split.
      * right. split; [reflexivity|]. exists f. split; reflexivity.
      * rewrite !List.filter_app, !length_app. simpl. lia.
    + split; [|exact Hn]. right. split; [exact He|]. exists g.
      split; assumption.
  - unfold CaptionExport.settled.
    destruct Hst as [(He & Hp & Hf) | (He & g & Hp & Hf)].
    + rewrite Hp. simpl. split; [|exact Hn].
      left. repeat split; assumption.
    + rewrite Hp in *. destruct k as [|k]; simpl.
      * split; [left; repeat split|].
        rewrite !List.filter_app, !length_app.
        destruct result; simpl in *; lia.
      * split; [|rewrite Hp; exact Hn].
        right. split; [exact He|]. exists g. split; assumption.
Qed.

Lemma export_run_consistent (prettyName : string)
    (es : list CaptionExport.event) (p : CaptionExport.Panel) :
  CaptionExport.consistent p ->
  CaptionExport.consistent (CaptionExport.run prettyName es p).
Proof.
  revert p. induction es as [|e es IH]; intros p Hp; [exact Hp|].
  simpl. apply IH, export_step_consistent, Hp.
Qed.

(** X15.  Exports of the caption panel never overlap.  After any clicks on
    format buttons and any settling of calls, in any order, at most one
    call of [exportFunction] is pending; the panel shows the export as
    running, with the pending format's name, exactly while one is pending;
    and every call that has settled has given exactly one toast, so the
    calls made are the toasts shown plus the pending call. *)
Theorem exports_never_overlap (prettyName : string)
    (es : list CaptionExport.event) :
  let p := CaptionExport.run prettyName es CaptionExport.initial in
  (length (CaptionExport.pending p) <= 1)%nat /\
  (CaptionExport.isExporting p = true <-> CaptionExport.pending p <> []) /\
  CaptionExport.exportingFormat p =
    CaptionExport.name <$> head (CaptionExport.pending p) /\
  length (List.filter CaptionExport.is_call (CaptionExport.effects p)) =
  (length (List.filter CaptionExport.is_toast (CaptionExport.effects p)) +
   length (CaptionExport.pending p))%nat.
Proof.
  intros p.
  assert (CaptionExport.consistent p) as [Hst Hn].
  { apply export_run_consistent. split; [left; repeat split | reflexivity]. }
  split; [|split; [|split; [|exact Hn]]].
  - destruct Hst as [(_ & -> & _) | (_ & f & -> & _)]; simpl; lia.
  - destruct Hst as [(He & Hp & _) | (He & f & Hp & _)]; rewrite He, Hp.
    + split; [discriminate | intros H; exfalso; apply H; reflexivity].
    + split; [intros _; discriminate | reflexivity].
  - destruct Hst as [(_ & Hp & Hf) | (_ & f & Hp & Hf)];
      rewrite Hp, Hf; reflexivity.
Qed.

(** ** The caption under the playhead *)

Lemma isCurrent_iff (seg : Caption.segment) (w : World) :
  CaptionSegment.isCurrent seg w = true <->
  Caption.start seg <= playbackTime (editorState w) /\
  playbackTime (editorState w) < Caption.end_ seg.
Proof.
  unfold CaptionSegment.isCurrent.
  rewrite andb_true_iff, lt_iff, Qle_bool_iff. reflexivity.
Qed.

(** X16.  Of two captions of which the first ends at or before the start
    of the second, at most one is shown as current; when the second
    starts exactly where the first ends and the playhead is between the
    start of the first and the end of the second, exactly one is: at the
    common boundary it is the second. *)
Theorem current_caption_is_unique (a b : Caption.segment) (w : World) :
  Caption.end_ a <= Caption.start b ->
  let t := playbackTime (editorState w) in
  (CaptionSegment.isCurrent a w && CaptionSegment.isCurrent b w = false) /\
  (Caption.end_ a == Caption.start b ->
   Caption.start a <= t -> t < Caption.end_ b ->
   xorb (CaptionSegment.isCurrent a w) (CaptionSegment.isCurrent b w) =
   true) /\
  (t == Caption.end_ a -> CaptionSegment.isCurrent a w = false).
Proof.
  intros Hab t.
  pose proof (isCurrent_iff a w) as Ha. pose proof (isCurrent_iff b w) as Hb.
  fold t in Ha, Hb.
  destruct (CaptionSegment.isCurrent a w) eqn:Ea,
           (CaptionSegment.isCurrent b w) eqn:Eb; simpl.
  - exfalso. destruct (proj1 Ha eq_refl), (proj1 Hb eq_refl). lra.
  - split; [reflexivity|]. split; [reflexivity|].
    intros Ht. destruct (proj1 Ha eq_refl). lra.
  - split; [reflexivity|]. split; reflexivity.
  - split; [reflexivity|]. split; [|reflexivity].
    intros He H1 H2. exfalso.
    destruct (Qlt_le_dec t (Caption.end_ a)) as [Hlt|Hge].
    + assert (false = true) as H by (apply Ha; split; assumption).
      discriminate H.
    + assert (false = true) as H by (apply Hb; split; lra).
      discriminate H.
Qed.

Lemma current_caption_is_unique_witness :
  let a := Caption.mk "a" 0 5 "first" in
  let w := Sample.world (Some [a; Sample.B]) None 5 10 in
  Caption.end_ a <= Caption.start Sample.B /\
  (CaptionSegment.isCurrent a w = false /\
   CaptionSegment.isCurrent Sample.B w = true) /\
  (CaptionSegment.isCurrent a w && CaptionSegment.isCurrent Sample.B w =
   false) /\
  (Caption.end_ a == Caption.start Sample.B ->
   Caption.start a <= 5 -> 5 < Caption.end_ Sample.B ->
   xorb (CaptionSegment.isCurrent a w) (CaptionSegment.isCurrent Sample.B w)
   = true) /\
  (5 == Caption.end_ a -> CaptionSegment.isCurrent a w = false).
Proof.
  intros a w.
  assert (Caption.end_ a <= Caption.start Sample.B) as H by (simpl; lra).
  split; [exact H|]. split; [split; reflexivity|].
  exact (current_caption_is_unique a Sample.B w H).
Defined.

End Extras.
